(** * Multi-vendor job dispatch service: a shallow embedding

    The development follows the TypeScript sources:
    - [models/Job.ts] and [repositories/JobRepository.ts]  (module [JobStore]),
    - [services/CircuitBreaker.ts]                          (module [CircuitBreaker]),
    - [services/VendorClient.ts], [vendors/VendorManager.ts] (modules [RateLimiter], [Vendor]),
    - [worker.ts]                                           (module [Worker]),
    - [server.ts]                                           (module [Server]).

    Conventions.  A JavaScript string is a [string] whose characters are
    UTF-16 code units below 256.  Instants ([Date.now()], [new Date()]) are
    integers, in milliseconds.  JavaScript numbers that count tokens are
    rationals: the arithmetic of the rate limiter is the exact one. *)

From Stdlib Require Import ZArith QArith Qminmax Qround Lqa Lia List Bool Ascii
  String.
From stdpp Require Import gmap strings list sorting pretty.
Import ListNotations.

Local Open Scope string_scope.
Local Open Scope list_scope.
Local Open Scope Z_scope.

Set Warnings "-register-all".

(** ** JavaScript values *)

Module Js.

(** The JSON fragment of JavaScript values, with [undefined].  Numbers are
    restricted to the integers. *)
Inductive value : Type :=
| JUndefined
| JNull
| JBool (b : bool)
| JNum (n : Z)
| JStr (s : string)
| JArr (items : list value)
| JObj (fields : list (string * value)).

(** [!!v] *)
Definition truthy (v : value) : bool :=
  match v with
  | JUndefined | JNull => false
  | JBool b => b
  | JNum n => negb (n =? 0)
  | JStr s => negb (String.eqb s EmptyString)
  | JArr _ | JObj _ => true
  end.

(** [typeof v === 'object'] ([null] included, as in JavaScript). *)
Definition typeof_object (v : value) : bool :=
  match v with
  | JNull | JArr _ | JObj _ => true
  | _ => false
  end.

(** [v === s], for a string literal [s]. *)
Definition is_string (v : value) (s : string) : bool :=
  match v with
  | JStr s' => String.eqb s' s
  | _ => false
  end.

(** [v == null], that is [null] or [undefined]. *)
Definition nullish (v : value) : bool :=
  match v with
  | JUndefined | JNull => true
  | _ => false
  end.

(** Truthiness of an optional string ([undefined], [null] and the empty
    string are falsy). *)
Definition truthy_str (s : option string) : bool :=
  match s with
  | Some s => negb (String.eqb s EmptyString)
  | None => false
  end.

(** Property read [o.k] on an object literal: the last binding wins. *)
Fixpoint get_prop (k : string) (fields : list (string * value)) : value :=
  match fields with
  | [] => JUndefined
  | (k', v) :: rest =>
      match get_prop k rest with
      | JUndefined => if String.eqb k k' then v else JUndefined
      | found => found
      end
  end.

(** Assignment [o.k = v]: overwrite in place, or append a new key. *)
Fixpoint set_prop (k : string) (v : value) (fields : list (string * value))
  : list (string * value) :=
  match fields with
  | [] => [(k, v)]
  | (k', v') :: rest =>
      if String.eqb k k' then (k, v) :: rest else (k', v') :: set_prop k v rest
  end.

(** White space of [String.prototype.trim] among the code units below 256:
    TAB, LF, VT, FF, CR, SP and NBSP. *)
Definition is_space (c : ascii) : bool :=
  let n := nat_of_ascii c in
  ((9 <=? n) && (n <=? 13) || (n =? 32) || (n =? 160))%nat.

Fixpoint trim_start (s : string) : string :=
  match s with
  | String c rest => if is_space c then trim_start rest else s
  | EmptyString => EmptyString
  end.

(** Drops the trailing white space: a character is kept when it is not a
    space or when something is kept after it. *)
Fixpoint trim_end (s : string) : string :=
  match s with
  | String c rest =>
      match trim_end rest with
      | EmptyString => if is_space c then EmptyString else String c EmptyString
      | kept => String c kept
      end
  | EmptyString => EmptyString
  end.

Definition trim (s : string) : string := trim_end (trim_start s).

End Js.

(** ** The job model ([models/Job.ts]) and its repository
       ([repositories/JobRepository.ts]) *)

Module JobStore.

Inductive Status : Type := pending | processing | complete | failed.

Definition Status_eqb (a b : Status) : bool :=
  match a, b with
  | pending, pending | processing, processing
  | complete, complete | failed, failed => true
  | _, _ => false
  end.

#[export] Instance Status_eq_dec : EqDecision Status.
Proof. solve_decision. Defined.

(** The domain object [Job] of [types/domain.ts]; an optional field that is
    left out is [JUndefined] or [None]. *)
Record Job : Type := mkJob {
  job_requestId : string;
  job_status : Status;
  job_payload : Js.value;
  job_result : Js.value;
  job_error : option string;
  job_createdAt : Z;
  job_updatedAt : Z;
  job_vendor : option string
}.

(** A stored document of the collection [jobs]; [None] is [null]. *)
Record JobDoc : Type := mkDoc {
  requestId : string;
  status : Status;
  payload : Js.value;
  result : Js.value;
  error : option string;
  vendor : option string;
  createdAt : Z;
  updatedAt : Z
}.

(** The collection, in insertion order. *)
Abbreviation Store := (list JobDoc).

(** *** Schema validators *)

Definition is_hex (c : ascii) : bool :=
  let n := nat_of_ascii c in
  ((48 <=? n) && (n <=? 57) || (97 <=? n) && (n <=? 102)
   || (65 <=? n) && (n <=? 70))%nat.

(** [[0-9a-f]{n}] with the flag [i]: the rest of the input after [n]
    hexadecimal digits. *)
Fixpoint hex_run (n : nat) (s : string) : option string :=
  match n with
  | O => Some s
  | S n' =>
      match s with
      | String c rest => if is_hex c then hex_run n' rest else None
      | EmptyString => None
      end
  end.

Definition dash (s : option string) : option string :=
  match s with
  | Some (String "-" rest) => Some rest
  | _ => None
  end.

(** [/^[0-9a-f]{8}-[0-9a-f]{4}-[0-9a-f]{4}-[0-9a-f]{4}-[0-9a-f]{12}$/i.test(v)] *)
Definition uuid_regex_test (v : string) : bool :=
  match
    hex_run 8 v ≫= λ r1, dash (Some r1) ≫= λ r1,
    hex_run 4 r1 ≫= λ r2, dash (Some r2) ≫= λ r2,
    hex_run 4 r2 ≫= λ r3, dash (Some r3) ≫= λ r3,
    hex_run 4 r3 ≫= λ r4, dash (Some r4) ≫= λ r4,
    hex_run 12 r4
  with
  | Some EmptyString => true
  | _ => false
  end.

(** The validator of [payload]: [v !== null && typeof v === 'object']. *)
Definition payload_validator (v : Js.value) : bool :=
  match v with
  | Js.JNull => false
  | _ => Js.typeof_object v
  end.

(** [new JobModel(job)]: the setters run ([trim] on [requestId] and
    [vendor]) and the defaults fill the fields left out ([null]). *)
Definition new_JobModel (job : Job) : JobDoc :=
  {| requestId := Js.trim (job_requestId job);
     status := job_status job;
     payload := job_payload job;
     result := match job_result job with Js.JUndefined => Js.JNull | r => r end;
     error := job_error job;
     vendor := Js.trim <$> job_vendor job;
     createdAt := job_createdAt job;
     updatedAt := job_updatedAt job |}.

(** The messages of the schema validators that fail, path by path; the
    first failing validator of a path gives its message. *)
Definition validate_requestId (d : JobDoc) : list string :=
  if String.eqb (requestId d) EmptyString then ["Request ID is required"]
  else if uuid_regex_test (requestId d) then []
  else ["Request ID must be a valid UUID"].

Definition validate_payload (d : JobDoc) : list string :=
  if Js.nullish (payload d) then ["Payload is required"]
  else if payload_validator (payload d) then []
  else ["Payload must be a valid object"].

Definition validate_error (d : JobDoc) : list string :=
  match error d with
  | Some e =>
      if (1000 <? String.length e)%nat
      then ["Error message cannot exceed 1000 characters"] else []
  | None => []
  end.

Definition validate (d : JobDoc) : list string :=
  validate_requestId d ++ validate_payload d ++ validate_error d.

(** [JobSchema.pre('save')]: the business rules; [Some msg] is
    [next(new Error(msg))]. *)
Definition pre_save (d : JobDoc) : option string :=
  if Status_eqb (status d) complete
     && negb (Js.truthy (result d)) && negb (Js.truthy_str (error d))
  then Some "Complete jobs must have either result or error"
  else if Status_eqb (status d) failed && negb (Js.truthy_str (error d))
  then Some "Failed jobs must have an error message"
  else None.

(** *** Errors thrown by the repository

    Every one is a plain [Error]; the constructor records which [throw] of
    the source built it and [message] is its text. *)
Inductive RepoError : Type :=
| ValidationFailed (messages : list string)
| AlreadyExists (id : string)
| FailedToCreate (cause : string)
| FailedToUpdateStatus (cause : string)
| FailedToUpdateResult (cause : string).

Fixpoint join (sep : string) (l : list string) : string :=
  match l with
  | [] => EmptyString
  | [x] => x
  | x :: rest => x +:+ sep +:+ join sep rest
  end.

Definition message (e : RepoError) : string :=
  match e with
  | ValidationFailed ms => "Validation failed: " +:+ join ", " ms
  | AlreadyExists id => "Job with requestId " +:+ id +:+ " already exists"
  | FailedToCreate c => "Failed to create job: " +:+ c
  | FailedToUpdateStatus c => "Failed to update job status: " +:+ c
  | FailedToUpdateResult c => "Failed to update job result: " +:+ c
  end.

Definition not_found (id : string) : string :=
  "Job with requestId " +:+ id +:+ " not found".

(** *** Queries and updates of the collection *)

(** Mongoose casts the filter of a query with the schema before the query
    is sent: the setter [trim] of the path [requestId] runs on the value
    given. *)
Definition cast_requestId (id : string) : string := Js.trim id.

(** The first document of the collection whose [requestId] is [key]. *)
Fixpoint first_with (key : string) (s : Store) : option JobDoc :=
  match s with
  | [] => None
  | d :: rest =>
      if String.eqb (requestId d) key then Some d else first_with key rest
  end.

(** [JobModel.findOne({ requestId })] *)
Definition findOne (id : string) (s : Store) : option JobDoc :=
  first_with (cast_requestId id) s.

(** The first document whose [requestId] is [key] is rewritten by [set];
    the count is [matchedCount]. *)
Fixpoint rewrite_first (key : string) (set : JobDoc → JobDoc) (s : Store)
  : nat * Store :=
  match s with
  | [] => (O, [])
  | d :: rest =>
      if String.eqb (requestId d) key then (1%nat, set d :: rest)
      else let '(n, rest') := rewrite_first key set rest in (n, d :: rest')
  end.

(** [JobModel.updateOne({ requestId }, { $set })] *)
Definition updateOne (id : string) (set : JobDoc → JobDoc) (s : Store)
  : nat * Store :=
  rewrite_first (cast_requestId id) set s.

(** *** What [save()] inserts for a new document *)

(** The keys that Mongoose's [clone] leaves out of every object. *)
Definition special_property (k : string) : bool :=
  String.eqb k "__proto__" || String.eqb k "constructor"
  || String.eqb k "prototype".

(** The loop of [cloneObject] with the option [minimize]: a key whose
    value comes out [undefined] is left out. *)
Fixpoint minimize_entries (recurse : Js.value → Js.value)
    (fields : list (string * Js.value)) : list (string * Js.value) :=
  match fields with
  | [] => []
  | (k, v) :: rest =>
      if special_property k then minimize_entries recurse rest
      else
        match recurse v with
        | Js.JUndefined => minimize_entries recurse rest
        | v' => (k, v') :: minimize_entries recurse rest
        end
  end.

(** Mongoose's [clone(v, { minimize: true })]: an object left with no key
    becomes [undefined], unless it is an element of an array. *)
Fixpoint clone_minimized (isArrayChild : bool) (v : Js.value) : Js.value :=
  match v with
  | Js.JArr items => Js.JArr (List.map (clone_minimized true) items)
  | Js.JObj fields =>
      match minimize_entries (clone_minimized false) fields with
      | [] => if isArrayChild then Js.JObj [] else Js.JUndefined
      | kept => Js.JObj kept
      end
  | _ => v
  end.

(** The document that [save()] inserts for the new document [doc]: the
    option [timestamps] of the schema sets [updatedAt] to the [createdAt]
    given, and the option [minimize] (on by default) drops the empty
    objects; a path that is not stored reads as [undefined]. *)
Definition inserted (doc : JobDoc) : JobDoc :=
  {| requestId := requestId doc;
     status := status doc;
     payload := clone_minimized false (payload doc);
     result := clone_minimized false (result doc);
     error := error doc;
     vendor := vendor doc;
     createdAt := createdAt doc;
     updatedAt := createdAt doc |}.

(** [JobRepository.create]: [save] validates, runs the [pre('save')] hook
    and inserts; the unique index on [requestId] refuses a second document
    with the same key (error E11000, "duplicate key"). *)
Definition create (job : Job) (s : Store) : RepoError + Store :=
  let doc := new_JobModel job in
  match validate doc with
  | (_ :: _) as ms => inl (ValidationFailed ms)
  | [] =>
      match pre_save doc with
      | Some msg => inl (FailedToCreate msg)
      | None =>
          match first_with (requestId doc) s with
          | Some _ => inl (AlreadyExists (job_requestId job))
          | None => inr (s ++ [inserted doc])
          end
      end
  end.

(** [JobRepository.findById] *)
Definition findById (id : string) (s : Store) : option JobDoc := findOne id s.

(** [JobRepository.updateStatus]; [now] is [new Date()]. *)
Definition updateStatus (now : Z) (id : string) (st : Status) (s : Store)
  : RepoError + Store :=
  let '(matched, s') :=
    updateOne id (λ d, {| requestId := requestId d; status := st;
                          payload := payload d; result := result d;
                          error := error d; vendor := vendor d;
                          createdAt := createdAt d; updatedAt := now |}) s in
  if (matched =? 0)%nat then inl (FailedToUpdateStatus (not_found id))
  else inr s'.

(** The object [updateData] of [updateResult], applied as [$set]. *)
Definition updateData (now : Z) (st : Status) (res : Js.value)
    (err : option string) (d : JobDoc) : JobDoc :=
  {| requestId := requestId d;
     status := st;
     payload := payload d;
     result := match res with Js.JUndefined => result d | r => r end;
     error := if Js.truthy_str err then err else error d;
     vendor := vendor d;
     createdAt := createdAt d;
     updatedAt := now |}.

(** [JobRepository.updateResult] *)
Definition updateResult (now : Z) (id : string) (st : Status)
    (res : Js.value) (err : option string) (s : Store) : RepoError + Store :=
  let '(matched, s') := updateOne id (updateData now st res err) s in
  if (matched =? 0)%nat then inl (FailedToUpdateResult (not_found id))
  else inr s'.

(** [JobModel.findByStatus(status)]: [find({ status }).sort({ createdAt: -1 })] *)
Definition newer_first (a b : JobDoc) : Prop := createdAt b ≤ createdAt a.

#[export] Instance newer_first_dec a b : Decision (newer_first a b).
Proof. unfold newer_first. apply _. Defined.

Definition JobModel_findByStatus (st : Status) (s : Store) : list JobDoc :=
  merge_sort newer_first (filter (λ d, status d = st) s).

(** [.limit(n)] of a query: MongoDB takes a limit of 0 as no limit. *)
Definition limited {A} (limit : nat) (l : list A) : list A :=
  if (limit =? 0)%nat then l else take limit l.

(** [JobRepository.findByStatus(status, limit = 100)] *)
Definition findByStatus (st : Status) (limit : nat) (s : Store) : list JobDoc :=
  limited limit (JobModel_findByStatus st s).

Definition default_limit : nat := 100.

(** Specification predicate: every stored [requestId] is trimmed, as
    [create] stores it. *)
Definition trimmed_ids (s : Store) : Prop :=
  ∀ d, d ∈ s → Js.trim (requestId d) = requestId d.

End JobStore.

(** ** The circuit breaker ([services/CircuitBreaker.ts]) *)

Module CircuitBreaker.

Inductive CircuitBreakerState : Type := CLOSED | OPEN | HALF_OPEN.

Definition state_eqb (a b : CircuitBreakerState) : bool :=
  match a, b with
  | CLOSED, CLOSED | OPEN, OPEN | HALF_OPEN, HALF_OPEN => true
  | _, _ => false
  end.

Record CircuitBreakerOptions : Type := mkOptions {
  failureThreshold : Z;
  recoveryTimeout : Z;
  monitoringWindow : Z;
  expectedLatency : Z;
  latencyThreshold : Z;
  minimumRequests : Z
}.

(** The private fields of the class. *)
Record t : Type := mkBreaker {
  state : CircuitBreakerState;
  failures : Z;
  successes : Z;
  totalRequests : Z;
  lastFailureTime : option Z;
  lastStateChange : Z;
  latencies : list Z;
  requestTimes : list Z
}.

(** The field initialisers; [now] is the [Date.now()] of construction. *)
Definition new (now : Z) : t :=
  {| state := CLOSED; failures := 0; successes := 0; totalRequests := 0;
     lastFailureTime := None; lastStateChange := now;
     latencies := []; requestTimes := [] |}.

(** [CIRCUIT_BREAKER_CONFIGS] *)
Definition VENDOR_API : CircuitBreakerOptions :=
  {| failureThreshold := 5; recoveryTimeout := 30000; monitoringWindow := 60000;
     expectedLatency := 1000; latencyThreshold := 5000; minimumRequests := 3 |}.

Definition DATABASE : CircuitBreakerOptions :=
  {| failureThreshold := 3; recoveryTimeout := 10000; monitoringWindow := 30000;
     expectedLatency := 100; latencyThreshold := 1000; minimumRequests := 5 |}.

Definition REDIS : CircuitBreakerOptions :=
  {| failureThreshold := 3; recoveryTimeout := 5000; monitoringWindow := 30000;
     expectedLatency := 10; latencyThreshold := 100; minimumRequests := 3 |}.

Section Breaker.

Variable options : CircuitBreakerOptions.

Definition setState (now : Z) (newState : CircuitBreakerState) (b : t) : t :=
  {| state := newState; failures := failures b; successes := successes b;
     totalRequests := totalRequests b; lastFailureTime := lastFailureTime b;
     lastStateChange := now; latencies := latencies b;
     requestTimes := requestTimes b |}.

Definition resetCounters (b : t) : t :=
  {| state := state b; failures := 0; successes := 0;
     totalRequests := totalRequests b; lastFailureTime := lastFailureTime b;
     lastStateChange := lastStateChange b; latencies := [];
     requestTimes := requestTimes b |}.

Definition recent (now : Z) (times : list Z) : list Z :=
  List.filter (λ time, now - monitoringWindow options <? time) times.

Definition cleanupOldRequests (now : Z) (b : t) : t :=
  {| state := state b; failures := failures b; successes := successes b;
     totalRequests := totalRequests b; lastFailureTime := lastFailureTime b;
     lastStateChange := lastStateChange b; latencies := latencies b;
     requestTimes := recent now (requestTimes b) |}.

(** [latencies.slice(-50)] when more than 100 are kept. *)
Definition keepRecentLatencies (b : t) : t :=
  {| state := state b; failures := failures b; successes := successes b;
     totalRequests := totalRequests b; lastFailureTime := lastFailureTime b;
     lastStateChange := lastStateChange b;
     latencies := if (100 <? length (latencies b))%nat
                  then drop (length (latencies b) - 50) (latencies b)
                  else latencies b;
     requestTimes := requestTimes b |}.

Definition getRecentRequestCount (now : Z) (b : t) : Z :=
  Z.of_nat (length (recent now (requestTimes b))).

Definition getErrorRate (b : t) : Q :=
  let total := failures b + successes b in
  if 0 <? total then (inject_Z (failures b) / inject_Z total)%Q else 0%Q.

Definition getAverageLatency (b : t) : Q :=
  if (length (latencies b) =? 0)%nat then 0%Q
  else
    let sum := fold_left (λ acc latency, acc + latency) (latencies b) 0 in
    (inject_Z sum / inject_Z (Z.of_nat (length (latencies b))))%Q.

Definition Qgtb (a b : Q) : bool := negb (Qle_bool a b).

Definition shouldOpen (now : Z) (b : t) : bool :=
  if totalRequests b <? minimumRequests options then false
  else if failureThreshold options <=? failures b then true
  else if Qgtb (getErrorRate b) (1 # 2)
          && (minimumRequests options <=? getRecentRequestCount now b)
  then true
  else if Qgtb (getAverageLatency b) (inject_Z (latencyThreshold options * 2))
  then true
  else false.

Definition shouldAttemptReset (now : Z) (b : t) : bool :=
  match lastFailureTime b with
  | None => true
  | Some last => recoveryTimeout options <=? now - last
  end.

Definition push_latency (latency : Z) (b : t) : t :=
  {| state := state b; failures := failures b; successes := successes b;
     totalRequests := totalRequests b; lastFailureTime := lastFailureTime b;
     lastStateChange := lastStateChange b;
     latencies := latencies b ++ [latency];
     requestTimes := requestTimes b |}.

(** [onSuccess(latency)], run at the instant [now]. *)
Definition onSuccess (now latency : Z) (b : t) : t :=
  let b := {| state := state b; failures := failures b;
              successes := successes b + 1;
              totalRequests := totalRequests b;
              lastFailureTime := lastFailureTime b;
              lastStateChange := lastStateChange b; latencies := latencies b;
              requestTimes := requestTimes b |} in
  let b := keepRecentLatencies (push_latency latency b) in
  if state_eqb (state b) HALF_OPEN
  then resetCounters (setState now CLOSED b)
  else b.

(** [onFailure(error, latency)], run at the instant [now]. *)
Definition onFailure (now latency : Z) (b : t) : t :=
  let b := {| state := state b; failures := failures b + 1;
              successes := successes b;
              totalRequests := totalRequests b;
              lastFailureTime := Some now;
              lastStateChange := lastStateChange b; latencies := latencies b;
              requestTimes := requestTimes b |} in
  let b := keepRecentLatencies (push_latency latency b) in
  if shouldOpen now b then setState now OPEN b else b.

(** What [execute] rejects with: the fail-fast error, the rejection of
    [createTimeoutPromise], or the error of the operation. *)
Inductive ExecError (E : Type) : Type :=
| CircuitOpen
| OperationTimeout (ms : Z)
| OperationError (e : E).
Arguments CircuitOpen {E}.
Arguments OperationTimeout {E} ms.
Arguments OperationError {E} e.

(** The first statement of [execute]: [None] is the fail-fast [throw],
    [Some b'] lets the call through. *)
Definition gate (now : Z) (b : t) : option t :=
  if state_eqb (state b) OPEN then
    if shouldAttemptReset now b then Some (setState now HALF_OPEN b)
    else None
  else Some b.

(** Book-keeping before the operation is started. *)
Definition begin_request (startTime : Z) (b : t) : t :=
  cleanupOldRequests startTime
    {| state := state b; failures := failures b; successes := successes b;
       totalRequests := totalRequests b + 1;
       lastFailureTime := lastFailureTime b;
       lastStateChange := lastStateChange b; latencies := latencies b;
       requestTimes := requestTimes b ++ [startTime] |}.

Section Execute.

(** The operation acts on a world [W]; it settles after [duration]
    milliseconds, with a value or with an error. *)
Variables W T E : Type.

Record Settled : Type := mkSettled {
  duration : Z;
  outcome : E + T
}.

Variable operation : W → W * Settled.

(** [Promise.race([operation(), createTimeoutPromise()])]: the operation
    wins when it settles before the timer of [latencyThreshold] fires, and
    also when both are due at the same instant, the operation having been
    started first. *)
Definition race (r : Settled) : Z * (ExecError E + T) :=
  if duration r <=? latencyThreshold options then
    (duration r, match outcome r with
                 | inl e => inl (OperationError e)
                 | inr v => inr v
                 end)
  else (latencyThreshold options,
        inl (OperationTimeout (latencyThreshold options))).

(** The body of [execute] once the call is let through. *)
Definition run (startTime : Z) (b : t) (w : W) : W * t * (ExecError E + T) :=
  let b := begin_request startTime b in
  let '(w', r) := operation w in
  let '(latency, res) := race r in
  match res with
  | inr v => (w', onSuccess (startTime + latency) latency b, inr v)
  | inl e => (w', onFailure (startTime + latency) latency b, inl e)
  end.

(** [execute(operation)], called at the instant [now].  The call is run
    from its first statement to its return in one step: no other call
    through the same breaker is interleaved with it. *)
Definition execute (now : Z) (b : t) (w : W) : W * t * (ExecError E + T) :=
  match gate now b with
  | None => (w, b, inl CircuitOpen)
  | Some b' => run now b' w
  end.

End Execute.

(** The breakers that calls of [execute] alone lead to, from the
    constructor on (no manual control in between). *)
Inductive operated : t → Prop :=
| operated_new now : operated (new now)
| operated_execute W T E (operation : W → W * Settled T E) now b w :
    operated b →
    operated (snd (fst (execute W T E operation now b w))).

(** Manual controls. *)
Definition forceOpen (now : Z) (b : t) : t := setState now OPEN b.

Definition forceClose (now : Z) (b : t) : t :=
  resetCounters (setState now CLOSED b).

Definition reset (now : Z) (b : t) : t :=
  let b := resetCounters (setState now CLOSED b) in
  {| state := state b; failures := failures b; successes := successes b;
     totalRequests := 0; lastFailureTime := None;
     lastStateChange := lastStateChange b; latencies := latencies b;
     requestTimes := [] |}.

End Breaker.

Arguments CircuitOpen {E}.
Arguments OperationTimeout {E} ms.
Arguments OperationError {E} e.
Arguments mkSettled {T E} duration outcome.
Arguments duration {T E} s.
Arguments outcome {T E} s.
Arguments execute options {W T E} operation now b w.
Arguments run options {W T E} operation startTime b w.
Arguments race options {T E} r.
Arguments operated_execute options {W T E} operation now b w _.

End CircuitBreaker.

(** ** The token bucket ([TokenBucketRateLimiter] of [services/VendorClient.ts];
       the class [RateLimiter] of [vendors/VendorManager.ts] has the same body) *)

Module RateLimiter.

Record t : Type := mkLimiter {
  tokens : Q;
  capacity : Q;
  refillRate : Q;
  lastRefill : Z
}.

(** [constructor(requestsPerMinute)], at the instant [now]. *)
Definition new (requestsPerMinute : Q) (now : Z) : t :=
  {| tokens := requestsPerMinute;
     capacity := requestsPerMinute;
     refillRate := (requestsPerMinute / 60)%Q;
     lastRefill := now |}.

(** What [refillTokens] assigns to [tokens]. *)
Definition refilled (now : Z) (l : t) : Q :=
  let timePassed := (inject_Z (now - lastRefill l) / 1000)%Q in
  let tokensToAdd := (timePassed * refillRate l)%Q in
  Qmin (capacity l) (tokens l + tokensToAdd)%Q.

Definition refillTokens (now : Z) (l : t) : t :=
  {| tokens := refilled now l; capacity := capacity l;
     refillRate := refillRate l; lastRefill := now |}.

(** [this.tokens -= 1] *)
Definition consume (l : t) : t :=
  {| tokens := (tokens l - 1)%Q; capacity := capacity l;
     refillRate := refillRate l; lastRefill := lastRefill l |}.

(** The delay handed to [setTimeout], in milliseconds.  (With a refill
    rate of zero the quotient is 0 here and infinite in JavaScript; the
    call never gets a token either way.) *)
Definition waitTime (l : t) : Q := ((1 - tokens l) / refillRate l * 1000)%Q.

Section Clock.

(** [wake now delay] is the instant at which a timer of [delay]
    milliseconds armed at [now] fires. *)
Variable wake : Z → Q → Z.

(** [waitForSlot()], entered at the instant [now]: the instant of return
    and the bucket then.  Each unit of [fuel] pays for one pass through
    the body; [None] is a call still waiting when the fuel is spent. *)
Fixpoint waitForSlot (fuel : nat) (now : Z) (l : t) : option (Z * t) :=
  match fuel with
  | O => None
  | S fuel' =>
      let l := refillTokens now l in
      if Qle_bool 1 (tokens l) then Some (now, consume l)
      else waitForSlot fuel' (wake now (waitTime l)) l
  end.

(** The buckets that a limiter built for [requestsPerMinute] goes
    through: the one of the constructor, and those left by a refill or
    by a call of [waitForSlot] that returned. *)
Inductive reachable (requestsPerMinute : Q) : t → Prop :=
| reach_new now :
    reachable requestsPerMinute (new requestsPerMinute now)
| reach_refill now l :
    reachable requestsPerMinute l →
    reachable requestsPerMinute (refillTokens now l)
| reach_wait fuel now l now' l' :
    reachable requestsPerMinute l →
    waitForSlot fuel now l = Some (now', l') →
    reachable requestsPerMinute l'.

(** A timer never fires early. *)
Definition punctual : Prop :=
  ∀ now delay, (inject_Z now + delay <= inject_Z (wake now delay))%Q.

(** A timer armed with a positive delay fires later than it is armed: the
    clock, in milliseconds, has moved on.  This asks less than [punctual],
    and holds of a timer that rounds its delay down to whole milliseconds
    but waits one millisecond at least. *)
Definition advancing : Prop :=
  ∀ now delay, (0 < delay)%Q → now < wake now delay.

End Clock.

(** The least instant that is not before [now + delay]. *)
Definition ceil_wake (now : Z) (delay : Q) : Z :=
  now + - ((- Qnum delay) / Z.pos (Qden delay)).

End RateLimiter.

(** ** The world the processes act on, and the monad of their effects *)

Module Sys.

(** An outbound [axios.post(url, data, { timeout, headers })]. *)
Record HttpPost : Type := mkPost {
  post_url : string;
  post_data : Js.value;
  post_timeout : Z;
  post_headers : list (string * string)
}.

(** How the request ends: a 2xx response, an Axios error (with
    [error.response?.data?.message] and [error.message]), or another
    [Error].  [reply_after] is the time it took, in milliseconds. *)
Inductive HttpResult : Type :=
| Response (code : Z) (data : Js.value)   (* code in the 2xx range *)
| AxiosError (response_message : option string) (msg : string)
| OtherError (msg : string).

Record HttpReply : Type := mkReply {
  reply_after : Z;
  reply_result : HttpResult
}.

(** What lies outside the repository: the parser of JSON, the printer of
    dates, the recursive part of [DataCleaner.clean], the vendors behind
    the network, and the timers. *)
Record Env : Type := mkEnv {
  JSON_parse : string → option Js.value;
  toISOString : Z → string;
  cleanObject : Js.value → Js.value;
  network : HttpPost → HttpReply;
  wake : Z → Q → Z
}.

(** MongoDB ([jobs]), Redis (the keys [job:<id>] and the acknowledged
    entries of the stream [job-queue]), the requests that reached a
    vendor, the buckets of the worker's [VendorManager], and the clock. *)
Record World : Type := mkWorld {
  now : Z;
  jobs : JobStore.Store;
  cache : gmap string JobStore.JobDoc;
  posts : list HttpPost;
  acked : list string;
  rateLimiters : gmap string RateLimiter.t
}.

Definition set_now (t : Z) (w : World) : World :=
  {| now := t; jobs := jobs w; cache := cache w; posts := posts w;
     acked := acked w; rateLimiters := rateLimiters w |}.

Definition set_jobs (s : JobStore.Store) (w : World) : World :=
  {| now := now w; jobs := s; cache := cache w; posts := posts w;
     acked := acked w; rateLimiters := rateLimiters w |}.

Definition set_cache (c : gmap string JobStore.JobDoc) (w : World) : World :=
  {| now := now w; jobs := jobs w; cache := c; posts := posts w;
     acked := acked w; rateLimiters := rateLimiters w |}.

Definition set_posts (p : list HttpPost) (w : World) : World :=
  {| now := now w; jobs := jobs w; cache := cache w; posts := p;
     acked := acked w; rateLimiters := rateLimiters w |}.

Definition set_acked (a : list string) (w : World) : World :=
  {| now := now w; jobs := jobs w; cache := cache w; posts := posts w;
     acked := a; rateLimiters := rateLimiters w |}.

Definition set_rateLimiters (r : gmap string RateLimiter.t) (w : World)
  : World :=
  {| now := now w; jobs := jobs w; cache := cache w; posts := posts w;
     acked := acked w; rateLimiters := r |}.

(** An awaited computation returns, throws an [Error] with a message, or
    is still pending when the fuel of a timer loop is spent. *)
Inductive Outcome (A : Type) : Type :=
| Return (a : A)
| Throw (msg : string)
| Pending.
Arguments Return {A} a.
Arguments Throw {A} msg.
Arguments Pending {A}.

Definition M (A : Type) : Type := World → Outcome A * World.

Definition ret {A} (a : A) : M A := λ w, (Return a, w).

Definition bind {A B} (m : M A) (k : A → M B) : M B :=
  λ w, match m w with
       | (Return a, w') => k a w'
       | (Throw msg, w') => (Throw msg, w')
       | (Pending, w') => (Pending, w')
       end.

Definition throw {A} (msg : string) : M A := λ w, (Throw msg, w).

(** [try { m } catch (error) { handler(error.message) }] *)
Definition try_catch {A} (m : M A) (handler : string → M A) : M A :=
  λ w, match m w with
       | (Throw msg, w') => handler msg w'
       | r => r
       end.

Definition get : M World := λ w, (Return w, w).
Definition modify (f : World → World) : M unit := λ w, (Return tt, f w).

(** A call of the repository, whose errors are thrown. *)
Definition repo (f : JobStore.Store → JobStore.RepoError + JobStore.Store)
  : M unit :=
  λ w, match f (jobs w) with
       | inl e => (Throw (JobStore.message e), w)
       | inr s => (Return tt, set_jobs s w)
       end.

(** [for (const x of xs) { await body(x) }] *)
Fixpoint for_each {A} (xs : list A) (body : A → M unit) : M unit :=
  match xs with
  | [] => ret tt
  | x :: rest => bind (body x) (λ _, for_each rest body)
  end.

(** Specification predicates.  [returns m w post]: run from [w], [m]
    returns, with a value and a world that satisfy [post]. *)
Definition returns {A} (m : M A) (w : World) (post : A → World → Prop) : Prop :=
  ∃ a w', m w = (Return a, w') ∧ post a w'.

(** What the writes to the collection leave alone. *)
Definition same_traffic (w w' : World) : Prop :=
  posts w' = posts w ∧ acked w' = acked w ∧ rateLimiters w' = rateLimiters w.

(** Between [w] and [w'] one request went out, for [requestId], and
    nothing was acknowledged. *)
Definition sent (requestId : string) (w w' : World) : Prop :=
  ∃ p, posts w' = posts w ++ [p]
       ∧ post_headers p = [("Content-Type", "application/json");
                           ("X-Request-ID", requestId)]
       ∧ acked w' = acked w.

(** The same, with the address and the timeout of the request. *)
Definition sent_to (url : string) (timeout : Z) (requestId : string)
    (w w' : World) : Prop :=
  ∃ p, posts w' = posts w ++ [p]
       ∧ post_url p = url ∧ post_timeout p = timeout
       ∧ post_headers p = [("Content-Type", "application/json");
                           ("X-Request-ID", requestId)]
       ∧ acked w' = acked w.

(** The bucket of a vendor is there, and can hold a token. *)
Definition bucket_ready (w : World) (vendorName : string) : Prop :=
  ∃ l, rateLimiters w !! vendorName = Some l
       ∧ (1 <= RateLimiter.capacity l)%Q ∧ (0 < RateLimiter.refillRate l)%Q.

(** The notations [x ← m; k] and [m;; k] of stdpp, at [M]. *)
#[export] Instance M_ret : MRet M := @ret.
#[export] Instance M_bind : MBind M := λ A B k m, bind m k.

End Sys.

(** ** The worker's vendor registry ([vendors/VendorManager.ts]) *)

Module Vendor.

Import Sys.

Record VendorConfig : Type := mkVendor {
  name : string;
  url : string;
  rateLimit : Q;
  isAsync : bool;
  timeout : Z
}.

Inductive ResponseStatus : Type := success | error.

Record VendorResponse : Type := mkResponse {
  data : Js.value;
  resp_isAsync : bool;
  resp_status : ResponseStatus;
  resp_error : option string
}.

(** [services/Configuration.ts]: the environment variables read by the
    vendor code; [None] is an unset variable. *)
Record Configuration : Type := mkConfig {
  SYNC_VENDOR_URL : option string;
  ASYNC_VENDOR_URL : option string;
  API_BASE_URL : option string
}.

(** [this.get(key) || fallback] *)
Definition or_default (v : option string) (fallback : string) : string :=
  match v with
  | Some s => if String.eqb s EmptyString then fallback else s
  | None => fallback
  end.

Definition getSyncVendorUrl (c : Configuration) : string :=
  or_default (SYNC_VENDOR_URL c) "http://localhost:3001/api/data".
Definition getAsyncVendorUrl (c : Configuration) : string :=
  or_default (ASYNC_VENDOR_URL c) "http://localhost:3002/api/data".
Definition getApiBaseUrl (c : Configuration) : string :=
  or_default (API_BASE_URL c) "http://localhost:3000".

Section Manager.

Variable env : Env.
Variable config : Configuration.

Definition syncVendor : VendorConfig :=
  {| name := "syncVendor"; url := getSyncVendorUrl config;
     rateLimit := 60; isAsync := false; timeout := 5000 |}.

Definition asyncVendor : VendorConfig :=
  {| name := "asyncVendor"; url := getAsyncVendorUrl config;
     rateLimit := 30; isAsync := true; timeout := 15000 |}.

(** [initializeVendors()]: the map [vendors], and the map [rateLimiters]
    as built at the instant [t]. *)
Definition vendors : gmap string VendorConfig :=
  <["asyncVendor" := asyncVendor]> (<["syncVendor" := syncVendor]> ∅).

Definition initial_rateLimiters (t : Z) : gmap string RateLimiter.t :=
  <["asyncVendor" := RateLimiter.new (rateLimit asyncVendor) t]>
    (<["syncVendor" := RateLimiter.new (rateLimit syncVendor) t]> ∅).

(** The own enumerable properties copied by [{ ...payload }]. *)
Fixpoint chars_from (i : nat) (s : string) : list (string * Js.value) :=
  match s with
  | EmptyString => []
  | String c rest =>
      (pretty i, Js.JStr (String c EmptyString)) :: chars_from (S i) rest
  end.

Definition spread (payload : Js.value) : list (string * Js.value) :=
  match payload with
  | Js.JObj fields => fields
  | Js.JArr items => imap (λ i v, (pretty i, v)) items
  | Js.JStr s => chars_from 0 s
  | _ => []
  end.

Definition requestData (vendor : VendorConfig) (vendorName : string)
    (payload : Js.value) (requestId : string) (t : Z) : Js.value :=
  let fields :=
    Js.set_prop "timestamp" (Js.JStr (toISOString env t))
      (Js.set_prop "requestId" (Js.JStr requestId) (spread payload)) in
  Js.JObj
    (if isAsync vendor
     then Js.set_prop "webhookUrl"
            (Js.JStr (getApiBaseUrl config +:+ "/vendor-webhook/" +:+ vendorName))
            fields
     else fields).

(** [await rateLimiter.waitForSlot()] on the bucket of [vendorName], with
    the clock of the world. *)
Definition waitForSlot (fuel : nat) (vendorName : string)
    (l : RateLimiter.t) : M unit :=
  λ w, match RateLimiter.waitForSlot (wake env) fuel (now w) l with
       | Some (t, l') =>
           (Return tt,
            set_now t (set_rateLimiters (<[vendorName := l']> (rateLimiters w)) w))
       | None => (Pending, w)
       end.

(** [await axios.post(...)]: the request reaches the vendor, and the
    reply comes after [reply_after] milliseconds. *)
Definition axios_post (p : HttpPost) : M HttpReply :=
  λ w, let r := network env p in
       (Return r, set_now (now w + reply_after r) (set_posts (posts w ++ [p]) w)).

(** The [catch] of [callVendor]. *)
Definition errorMessage (r : HttpResult) : string :=
  match r with
  | AxiosError response_message msg =>
      match response_message with
      | Some m => if String.eqb m EmptyString then
                    (if String.eqb msg EmptyString then "HTTP request failed" else msg)
                  else m
      | None => if String.eqb msg EmptyString then "HTTP request failed" else msg
      end
  | OtherError msg => msg
  | Response _ _ => "Unknown vendor error"
  end.

(** [VendorManager.callVendor(vendorName, payload, requestId)] *)
Definition callVendor (fuel : nat) (vendorName : string) (payload : Js.value)
    (requestId : string) : M VendorResponse :=
  match vendors !! vendorName with
  | None => throw ("Unknown vendor: " +:+ vendorName)
  | Some vendor =>
      w ← get;
      match rateLimiters w !! vendorName with
      | None => throw ("Rate limiter not found for vendor: " +:+ vendorName)
      | Some rateLimiter =>
          waitForSlot fuel vendorName rateLimiter;;
          w ← get;
          reply ← axios_post
            {| post_url := url vendor;
               post_data := requestData vendor vendorName payload requestId (now w);
               post_timeout := timeout vendor;
               post_headers := [("Content-Type", "application/json");
                                ("X-Request-ID", requestId)] |};
          match reply_result reply with
          | Response _ d =>
              mret {| data := d; resp_isAsync := isAsync vendor;
                      resp_status := success; resp_error := None |}
          | failure =>
              mret {| data := Js.JNull; resp_isAsync := isAsync vendor;
                      resp_status := error;
                      resp_error := Some (errorMessage failure) |}
          end
      end
  end.

End Manager.

End Vendor.

(** ** The background worker ([worker.ts]) *)

Module Worker.

Import Sys.

(** An entry of the stream [job-queue], as [xReadGroup] delivers it. *)
Record QueueMessage : Type := mkMessage {
  id : string;
  msg_requestId : string;
  msg_payload : string;
  msg_timestamp : string
}.

Section Worker.

Variable env : Env.
Variable config : Vendor.Configuration.

(** [JSON.parse(payload)] *)
Definition parse (payload : string) : M Js.value :=
  match JSON_parse env payload with
  | Some v => mret v
  | None => throw "Unexpected token in JSON"
  end.

(** [selectVendor(payload)]; reading [payload.type] of [null] throws. *)
Definition selectVendor (payload : Js.value) : M string :=
  match payload with
  | Js.JNull | Js.JUndefined =>
      throw "Cannot read properties of null (reading 'type')"
  | _ =>
      let type := match payload with
                  | Js.JObj fields => Js.get_prop "type" fields
                  | _ => Js.JUndefined
                  end in
      if Js.is_string type "sync" || negb (Js.truthy type)
      then mret "syncVendor"
      else mret "asyncVendor"
  end.

(** [DataCleaner.clean(data)] *)
Definition clean (data : Js.value) : Js.value :=
  if negb (Js.truthy data) || negb (Js.typeof_object data) then data
  else cleanObject env data.

Definition updateOne (requestId : string)
    (set : Z → JobStore.JobDoc → JobStore.JobDoc) : M nat :=
  λ w, let '(matched, s) := JobStore.updateOne requestId (set (now w)) (jobs w) in
       (Return matched, set_jobs s w).

(** [updateJobStatus(requestId, status)]: a job that is not found is only
    logged. *)
Definition updateJobStatus (requestId : string) (st : JobStore.Status)
  : M unit :=
  updateOne requestId (λ t d,
    {| JobStore.requestId := JobStore.requestId d; JobStore.status := st;
       JobStore.payload := JobStore.payload d;
       JobStore.result := JobStore.result d;
       JobStore.error := JobStore.error d;
       JobStore.vendor := JobStore.vendor d;
       JobStore.createdAt := JobStore.createdAt d;
       JobStore.updatedAt := t |});;
  mret tt.

(** [JobModel.updateOne({ requestId }, { $set: { vendor, updatedAt } })] *)
Definition assignVendor (requestId vendor : string) : M unit :=
  updateOne requestId (λ t d,
    {| JobStore.requestId := JobStore.requestId d;
       JobStore.status := JobStore.status d;
       JobStore.payload := JobStore.payload d;
       JobStore.result := JobStore.result d;
       JobStore.error := JobStore.error d;
       JobStore.vendor := Some vendor;
       JobStore.createdAt := JobStore.createdAt d;
       JobStore.updatedAt := t |});;
  mret tt.

(** [updateJobResult(requestId, status, result, error?)]: [result] is
    written unless it is [null] (an [undefined] value is dropped from the
    [$set]), [error] when it is truthy. *)
Definition updateJobResult (requestId : string) (st : JobStore.Status)
    (res : Js.value) (err : option string) : M unit :=
  updateOne requestId (λ t d,
    {| JobStore.requestId := JobStore.requestId d; JobStore.status := st;
       JobStore.payload := JobStore.payload d;
       JobStore.result := if Js.nullish res then JobStore.result d else res;
       JobStore.error := if Js.truthy_str err then err else JobStore.error d;
       JobStore.vendor := JobStore.vendor d;
       JobStore.createdAt := JobStore.createdAt d;
       JobStore.updatedAt := t |});;
  mret tt.

(** [processJob(message)] *)
Definition processJob (fuel : nat) (message : QueueMessage) : M unit :=
  let requestId := msg_requestId message in
  try_catch
    (updateJobStatus requestId JobStore.processing;;
     jobPayload ← parse (msg_payload message);
     vendor ← selectVendor jobPayload;
     assignVendor requestId vendor;;
     vendorResponse ← Vendor.callVendor env config fuel vendor jobPayload requestId;
     if Vendor.resp_isAsync vendorResponse then mret tt
     else
       let cleanedData := clean (Vendor.data vendorResponse) in
       updateJobResult requestId JobStore.complete cleanedData None)
    (λ errorMessage,
       updateJobResult requestId JobStore.failed Js.JNull (Some errorMessage)).

(** [redisClient.xAck("job-queue", "workers", message.id)] *)
Definition xAck (messageId : string) : M unit :=
  modify (λ w, set_acked (acked w ++ [messageId]) w).

(** [new Promise(resolve => setTimeout(resolve, ms))] *)
Definition sleep (ms : Z) : M unit :=
  modify (λ w, set_now (wake env (now w) (inject_Z ms)) w).

(** One turn of the loop of [start()], for the messages that [xReadGroup]
    delivered. *)
Definition turn (fuel : nat) (messages : list QueueMessage) : M unit :=
  try_catch
    (for_each messages (λ message,
       processJob fuel message;;
       xAck (id message)))
    (λ _, sleep 5000).

End Worker.

End Worker.

(** ** The API server ([server.ts]): webhook intake and timeout sweeper *)

Module Server.

Import Sys.

Record HttpResponse : Type := mkHttpResponse {
  code : Z;
  body : Js.value
}.

(** The fields that the handler reads off [req.body]. *)
Record WebhookBody : Type := mkWebhook {
  wb_requestId : option string;
  wb_result : Js.value;
  wb_status : option JobStore.Status;
  wb_error : option string
}.

(** [invalidateJobCache(requestId)] *)
Definition invalidateJobCache (requestId : string) : M unit :=
  modify (λ w, set_cache (delete ("job:" +:+ requestId) (cache w)) w).

(** [jobRepository.updateResult(...)], dated by the clock. *)
Definition updateResult (requestId : string) (st : JobStore.Status)
    (res : Js.value) (err : option string) : M unit :=
  w ← get;
  repo (JobStore.updateResult (now w) requestId st res err).

Definition error_body (msg : string) : Js.value :=
  Js.JObj [("error", Js.JStr msg)].

(** [handleVendorWebhook(req, res)]: the response sent. *)
Definition handleVendorWebhook (vendor : string) (b : WebhookBody)
  : M HttpResponse :=
  try_catch
    (match wb_requestId b with
     | Some requestId =>
         if String.eqb requestId EmptyString then
           mret {| code := 400; body := error_body "requestId is required" |}
         else
           updateResult requestId
             (default JobStore.complete (wb_status b))
             (wb_result b) (wb_error b);;
           invalidateJobCache requestId;;
           mret {| code := 200;
                   body := Js.JObj [("success", Js.JBool true)] |}
     | None =>
         mret {| code := 400; body := error_body "requestId is required" |}
     end)
    (λ _, mret {| code := 500; body := error_body "Internal server error" |}).

Definition staleJobsTimeout : Z := 5 * 60 * 1000.

Definition timeout_message : string := "Job timed out - no webhook received".

(** The test of the loop:
    [job.updatedAt < cutoffTime && job.vendor === 'asyncVendor']. *)
Definition is_stale (cutoffTime : Z) (job : JobStore.JobDoc) : bool :=
  (JobStore.updatedAt job <? cutoffTime)
  && bool_decide (JobStore.vendor job = Some "asyncVendor").

(** The body of the loop of [checkAndTimeoutStaleJobs]. *)
Definition timeoutIfStale (cutoffTime : Z) (job : JobStore.JobDoc) : M unit :=
  if is_stale cutoffTime job then
    updateResult (JobStore.requestId job) JobStore.failed Js.JNull
      (Some timeout_message);;
    invalidateJobCache (JobStore.requestId job)
  else mret tt.

(** What a run of the loop over the jobs [found] makes of a stored
    document: the [$set] of [updateResult] when the document is one of
    [found] (by its key) and passes the test, the document itself
    otherwise.  Used to state what the sweeper does to the collection. *)
Definition swept_by (found : list JobStore.JobDoc) (cutoffTime t : Z)
    (d : JobStore.JobDoc) : JobStore.JobDoc :=
  if bool_decide (JobStore.requestId d ∈ JobStore.requestId <$> found)
     && is_stale cutoffTime d
  then JobStore.updateData t JobStore.failed Js.JNull (Some timeout_message) d
  else d.

(** [checkAndTimeoutStaleJobs()] *)
Definition checkAndTimeoutStaleJobs : M unit :=
  try_catch
    (w ← get;
     let cutoffTime := now w - staleJobsTimeout in
     let staleJobs :=
       JobStore.findByStatus JobStore.processing JobStore.default_limit (jobs w) in
     for_each staleJobs (timeoutIfStale cutoffTime))
    (λ _, mret tt).

End Server.

(** ** More of the job model: the other queries of the repository and the
       instance methods of the schema *)

Module JobQueries.

Import JobStore.

(** [JobModel.findByVendor(vendor)]:
    [find({ vendor }).sort({ createdAt: -1 })] *)
Definition JobModel_findByVendor (v : string) (s : Store) : list JobDoc :=
  merge_sort newer_first (filter (λ d, vendor d = Some v) s).

(** [JobRepository.findByVendor(vendor, limit = 100)] *)
Definition findByVendor (v : string) (limit : nat) (s : Store) : list JobDoc :=
  limited limit (JobModel_findByVendor v s).

(** [JobModel.findRecentJobs(hours)], at the instant [now]:
    [find({ createdAt: { $gte: since } }).sort({ createdAt: -1 })] *)
Definition findRecentJobs (now hours : Z) (s : Store) : list JobDoc :=
  let since := now - hours * 60 * 60 * 1000 in
  merge_sort newer_first (filter (λ d, since ≤ createdAt d) s).

(** [JobRepository.getRecentJobs(hours = 24)] *)
Definition getRecentJobs (now hours : Z) (s : Store) : list JobDoc :=
  findRecentJobs now hours s.





End JobQueries.

Module JobMethods.

Import JobStore.

(** What [save()] of a loaded document rejects with: the validation
    error of its paths, or the [Error] of the [pre('save')] hook. *)
Inductive SaveError : Type :=
| SaveValidation (messages : list string)
| SaveRefused (msg : string).

(** [this.save()] after the assignments of an instance method: the
    validators of the schema, which Mongoose runs first, then
    [pre('save')]. *)
Definition save (d : JobDoc) : SaveError + JobDoc :=
  match validate d with
  | (_ :: _) as ms => inl (SaveValidation ms)
  | [] =>
      match pre_save d with
      | Some msg => inl (SaveRefused msg)
      | None => inr d
      end
  end.

(** [markAsProcessing(vendor)]; [now] is [new Date()]. *)
Definition markAsProcessing (now : Z) (v : string) (d : JobDoc)
  : SaveError + JobDoc :=
  save {| requestId := requestId d; status := processing;
          payload := payload d; result := result d; error := error d;
          vendor := Some (Js.trim v); createdAt := createdAt d;
          updatedAt := now |}.

(** [markAsComplete(result)] *)
Definition markAsComplete (now : Z) (res : Js.value) (d : JobDoc)
  : SaveError + JobDoc :=
  save {| requestId := requestId d; status := complete;
          payload := payload d;
          result := match res with Js.JUndefined => Js.JNull | r => r end;
          error := None; vendor := vendor d; createdAt := createdAt d;
          updatedAt := now |}.

(** [markAsFailed(error)] *)
Definition markAsFailed (now : Z) (err : string) (d : JobDoc)
  : SaveError + JobDoc :=
  save {| requestId := requestId d; status := failed;
          payload := payload d; result := Js.JNull; error := Some err;
          vendor := vendor d; createdAt := createdAt d;
          updatedAt := now |}.

End JobMethods.

(** ** More of the circuit breaker: statistics and the manager *)

Module CircuitBreakerManager.

Import CircuitBreaker.

Record CircuitBreakerStats : Type := mkStats {
  stats_state : CircuitBreakerState;
  stats_failures : Z;
  stats_successes : Z;
  stats_totalRequests : Z;
  stats_lastFailureTime : option Z;
  stats_lastStateChange : Z;
  avgLatency : Q;
  errorRate : Q
}.

(** [CircuitBreaker.getStats()] *)
Definition getStats (b : CircuitBreaker.t) : CircuitBreakerStats :=
  {| stats_state := state b; stats_failures := failures b;
     stats_successes := successes b; stats_totalRequests := totalRequests b;
     stats_lastFailureTime := lastFailureTime b;
     stats_lastStateChange := lastStateChange b;
     avgLatency := getAverageLatency b; errorRate := getErrorRate b |}.

Definition isOpen (b : CircuitBreaker.t) : bool := state_eqb (state b) OPEN.
Definition isClosed (b : CircuitBreaker.t) : bool := state_eqb (state b) CLOSED.
Definition isHalfOpen (b : CircuitBreaker.t) : bool :=
  state_eqb (state b) HALF_OPEN.

(** Specification predicate: the counters of a breaker agree with one
    another, and the window of latencies is bounded. *)
Definition counters_ok (b : CircuitBreaker.t) : Prop :=
  0 ≤ failures b ∧ 0 ≤ successes b
  ∧ failures b + successes b ≤ totalRequests b
  ∧ (length (latencies b) ≤ 100)%nat.

(** A breaker of the manager, with the options it was built with. *)
Record Entry : Type := mkEntry {
  entry_options : CircuitBreakerOptions;
  entry_breaker : CircuitBreaker.t
}.

(** The field [breakers]: a [Map], in insertion order. *)
Definition t : Type := list (string * Entry).

(** [Map.prototype.set]: a known key keeps its place. *)
Fixpoint map_set (k : string) (v : Entry) (m : t) : t :=
  match m with
  | [] => [(k, v)]
  | (k', v') :: rest =>
      if String.eqb k' k then (k, v) :: rest else (k', v') :: map_set k v rest
  end.

(** [Map.prototype.get] *)
Fixpoint map_get (k : string) (m : t) : option Entry :=
  match m with
  | [] => None
  | (k', v) :: rest => if String.eqb k' k then Some v else map_get k rest
  end.

(** [createBreaker(serviceName, options)], at the instant [now]. *)
Definition createBreaker (now : Z) (serviceName : string)
    (options : CircuitBreakerOptions) (m : t) : t :=
  map_set serviceName
    {| entry_options := options; entry_breaker := CircuitBreaker.new now |} m.

(** [getBreaker(serviceName)] *)
Definition getBreaker (serviceName : string) (m : t)
  : option CircuitBreaker.t :=
  entry_breaker <$> map_get serviceName m.

(** [getAllStats()] *)
Definition getAllStats (m : t) : list (string * CircuitBreakerStats) :=
  (λ '(name, e), (name, getStats (entry_breaker e))) <$> m.

(** [getHealthyServices()] *)
Definition getHealthyServices (m : t) : list string :=
  fst <$> List.filter (λ '(_, e), isClosed (entry_breaker e)) m.

(** [getUnhealthyServices()] *)
Definition getUnhealthyServices (m : t) : list string :=
  fst <$> List.filter (λ '(_, e), isOpen (entry_breaker e)) m.

(** [resetAll()]; [clock i] is the [Date.now()] read by the reset of the
    breaker at position [i]. *)
Definition resetAll (clock : nat → Z) (m : t) : t :=
  imap (λ i '(name, e),
          (name, {| entry_options := entry_options e;
                    entry_breaker :=
                      CircuitBreaker.reset (clock i) (entry_breaker e) |})) m.

End CircuitBreakerManager.

(** ** Calls of the rate limiter in a row *)

Module RateLimiterRuns.

Import RateLimiter.

(** [n] calls of [waitForSlot()] one after the other, the first entered at
    [now] and each next one when the previous call returns. *)
Fixpoint calls (wake : Z → Q → Z) (fuel n : nat) (now : Z) (l : RateLimiter.t)
  : option (Z * RateLimiter.t) :=
  match n with
  | O => Some (now, l)
  | S n' =>
      match waitForSlot wake fuel now l with
      | Some (now', l') => calls wake fuel n' now' l'
      | None => None
      end
  end.

End RateLimiterRuns.

(** ** Specification predicates for the processes *)

Module SysSpec.

Import Sys.

(** The stored job with the key [id] is [d]. *)
Definition job_is (id : string) (d : JobStore.JobDoc) (w : World) : Prop :=
  JobStore.findOne id (jobs w) = Some d.

(** The keys of an object are pairwise distinct, as in any JavaScript
    object. *)
Definition distinct_keys (fields : list (string * Js.value)) : Prop :=
  NoDup (fst <$> fields).

End SysSpec.

(** ** More of the API server: the status endpoint and its cache *)

Module ServerGet.

Import Sys.

(** The object built by [formatJobResponse]; a key that is not set is
    [None]. *)
Record JobResponse : Type := mkJobResponse {
  r_status : JobStore.Status;
  r_created_at : Z;
  r_updated_at : Z;
  r_result : option Js.value;
  r_error : option string
}.

(** [formatJobResponse(job)] *)
Definition formatJobResponse (job : JobStore.JobDoc) : JobResponse :=
  let with_result :=
    JobStore.Status_eqb (JobStore.status job) JobStore.complete
    && Js.truthy (JobStore.result job) in
  let with_error :=
    negb with_result
    && JobStore.Status_eqb (JobStore.status job) JobStore.failed
    && Js.truthy_str (JobStore.error job) in
  {| r_status := JobStore.status job;
     r_created_at := JobStore.createdAt job;
     r_updated_at := JobStore.updatedAt job;
     r_result := if with_result then Some (JobStore.result job) else None;
     r_error := if with_error then JobStore.error job else None |}.

(** The key of a job in Redis. *)
Definition cacheKey (requestId : string) : string := "job:" +:+ requestId.

(** [getCachedJob(requestId)] *)
Definition getCachedJob (requestId : string) : M (option JobStore.JobDoc) :=
  w ← get; mret (cache w !! cacheKey requestId).

(** The time to live that [cacheJob] hands to [setEx], in seconds. *)
Definition cacheTtl (job : JobStore.JobDoc) : Z :=
  if JobStore.Status_eqb (JobStore.status job) JobStore.complete
     || JobStore.Status_eqb (JobStore.status job) JobStore.failed
  then 3600 else 300.

(** [cacheJob(requestId, job)]; the entry stays until it is deleted (its
    expiry after [cacheTtl] seconds is not part of the world). *)
Definition cacheJob (requestId : string) (job : JobStore.JobDoc) : M unit :=
  modify (λ w, set_cache (<[cacheKey requestId := job]> (cache w)) w).

(** What [handleGetJob] sends: 200 with the formatted job, 400, 404, or
    500 from its [catch]. *)
Inductive GetJobReply : Type :=
| JobFound (response : JobResponse)
| RequestIdRequired
| JobNotFound
| InternalServerError.

Definition reply_code (r : GetJobReply) : Z :=
  match r with
  | JobFound _ => 200
  | RequestIdRequired => 400
  | JobNotFound => 404
  | InternalServerError => 500
  end.

(** [handleGetJob(req, res)] for [req.params.requestId]. *)
Definition handleGetJob (requestId : string) : M GetJobReply :=
  try_catch
    (if String.eqb requestId EmptyString then mret RequestIdRequired
     else
       cachedJob ← getCachedJob requestId;
       match cachedJob with
       | Some job => mret (JobFound (formatJobResponse job))
       | None =>
           w ← get;
           match JobStore.findById requestId (jobs w) with
           | None => mret JobNotFound
           | Some job =>
               cacheJob requestId job;;
               mret (JobFound (formatJobResponse job))
           end
       end)
    (λ _, mret InternalServerError).

End ServerGet.

(** ** The data cleaner ([utils/DataCleaner.ts]) *)

Module DataCleaner.

(** [String.prototype.toLowerCase] on code units below 256: the letters
    A-Z, and the Latin-1 capitals other than the multiplication sign. *)
Definition lower_char (c : ascii) : ascii :=
  let n := nat_of_ascii c in
  if ((65 <=? n) && (n <=? 90)
      || (192 <=? n) && (n <=? 222) && negb (n =? 215))%nat
  then ascii_of_nat (n + 32) else c.

Fixpoint toLowerCase (s : string) : string :=
  match s with
  | EmptyString => EmptyString
  | String c rest => String (lower_char c) (toLowerCase rest)
  end.

Fixpoint starts_with (sub s : string) : bool :=
  match sub, s with
  | EmptyString, _ => true
  | String a sub', String b s' => Ascii.eqb a b && starts_with sub' s'
  | String _ _, EmptyString => false
  end.

(** [s.includes(sub)] *)
Fixpoint includes (s sub : string) : bool :=
  starts_with sub s
  || match s with
     | EmptyString => false
     | String _ rest => includes rest sub
     end.

(** [s.indexOf(c)], or -1. *)
Fixpoint indexOf (c : ascii) (s : string) : Z :=
  match s with
  | EmptyString => -1
  | String a rest =>
      if Ascii.eqb a c then 0
      else let i := indexOf c rest in if i <? 0 then -1 else i + 1
  end.

(** [s.substring(start)] *)
Fixpoint substring_from (start : nat) (s : string) : string :=
  match start, s with
  | O, _ => s
  | S n, String _ rest => substring_from n rest
  | S _, EmptyString => EmptyString
  end.

(** [s.substring(0, n)] *)
Fixpoint substring_to (n : nat) (s : string) : string :=
  match n, s with
  | S n', String c rest => String c (substring_to n' rest)
  | _, _ => EmptyString
  end.

(** [initializePiiFields()] *)
Definition piiFields : list string :=
  ["ssn"; "socialSecurityNumber"; "social_security_number";
   "creditCard"; "credit_card"; "creditCardNumber";
   "bankAccount"; "bank_account"; "routingNumber"; "routing_number";
   "password"; "pin"; "securityCode"; "security_code"; "cvv";
   "personalId"; "personal_id"; "driverLicense"; "drivers_license";
   "passport"; "taxId"; "tax_id"].

(** [shouldRemoveField(fieldName)] *)
Definition shouldRemoveField (fieldName : string) : bool :=
  let normalizedFieldName := toLowerCase fieldName in
  existsb (λ piiField, includes normalizedFieldName (toLowerCase piiField))
    piiFields.

(** [maskEmail(email)] *)
Definition maskEmail (email : string) : string :=
  let atIndex := indexOf "@" email in
  if 3 <? atIndex
  then substring_to 3 email +:+ "***" +:+ substring_from (Z.to_nat atIndex) email
  else email.

(** [maskPhone(phone)] *)
Definition maskPhone (phone : string) : string :=
  if (4 <? String.length phone)%nat
  then substring_to 3 phone +:+ "***"
       +:+ substring_from (String.length phone - 4) phone
  else phone.

(** [maskName(name)] *)
Definition maskName (name : string) : string :=
  if (1 <? String.length name)%nat
  then substring_to 1 name +:+ "***" else name.

(** [applyCleaningRules(fieldName, value)] on a string [value]. *)
Definition cleanString (fieldName value : string) : string :=
  let cleanedValue := Js.trim value in
  let field := toLowerCase fieldName in
  if includes field "email" then maskEmail cleanedValue
  else if includes field "phone" then maskPhone cleanedValue
  else if includes field "name" then maskName cleanedValue
  else cleanedValue.

(** [applyCleaningRules(fieldName, value)] *)
Definition applyCleaningRules (fieldName : string) (value : Js.value)
  : Js.value :=
  match value with
  | Js.JStr s => Js.JStr (cleanString fieldName s)
  | _ => value
  end.

(** What [cleanObject] stores under [key]: a string goes through the
    rules; an array or an object passes [applyCleaningRules] unchanged and
    is cleaned in turn by [recurse]; anything else is kept. *)
Definition cleanValue (recurse : Js.value → Js.value) (key : string)
    (value : Js.value) : Js.value :=
  match value with
  | Js.JArr _ | Js.JObj _ => recurse value
  | _ => applyCleaningRules key value
  end.

(** The loop of [cleanObject] over [Object.entries(obj)], with the object
    [cleaned] built so far.  The assignment [cleaned[key] = ...] for the
    key [__proto__] goes to the setter of the prototype, and adds no key
    to [cleaned]. *)
Fixpoint cleanEntries (recurse : Js.value → Js.value)
    (todo cleaned : list (string * Js.value)) : list (string * Js.value) :=
  match todo with
  | [] => cleaned
  | (key, value) :: rest =>
      if shouldRemoveField key then cleanEntries recurse rest cleaned
      else if String.eqb key "__proto__" then cleanEntries recurse rest cleaned
      else
        cleanEntries recurse rest
          (Js.set_prop key (cleanValue recurse key value) cleaned)
  end.

(** [cleanObject(obj)].  The entries of an object are visited in the order
    of its list of fields. *)
Fixpoint cleanObject (obj : Js.value) : Js.value :=
  match obj with
  | Js.JArr items => Js.JArr (List.map cleanObject items)
  | Js.JObj fields => Js.JObj (cleanEntries cleanObject fields [])
  | _ => obj
  end.

(** [clean(data)] *)
Definition clean (data : Js.value) : Js.value :=
  if negb (Js.truthy data) || negb (Js.typeof_object data) then data
  else cleanObject data.

(** Specification predicate: some object inside [v], at any depth, has a
    key that [shouldRemoveField] marks. *)
Fixpoint has_pii_key (v : Js.value) : bool :=
  match v with
  | Js.JArr items => existsb has_pii_key items
  | Js.JObj fields =>
      existsb (λ entry, shouldRemoveField entry.1 || has_pii_key entry.2)
        fields
  | _ => false
  end.


End DataCleaner.

(** ** Concrete data used by the examples *)

Module Examples.

Import Sys.

Definition uuid : string := "123e4567-e89b-42d3-a456-426614174000".
Definition uuid2 : string := "9b2c7f10-0a1b-4c3d-8e9f-0123456789ab".

(** The job that [handleCreateJob] builds for the body [{ "type": "async" }]. *)
Definition pending_job : JobStore.Job :=
  {| JobStore.job_requestId := uuid; JobStore.job_status := JobStore.pending;
     JobStore.job_payload := Js.JObj [("type", Js.JStr "async")];
     JobStore.job_result := Js.JUndefined; JobStore.job_error := None;
     JobStore.job_createdAt := 1000; JobStore.job_updatedAt := 1000;
     JobStore.job_vendor := None |}.

(** The same job with a space in front of its identifier. *)
Definition padded_job : JobStore.Job :=
  {| JobStore.job_requestId := " " +:+ uuid;
     JobStore.job_status := JobStore.pending;
     JobStore.job_payload := Js.JObj [("type", Js.JStr "async")];
     JobStore.job_result := Js.JUndefined; JobStore.job_error := None;
     JobStore.job_createdAt := 1000; JobStore.job_updatedAt := 1000;
     JobStore.job_vendor := None |}.

Definition doc (id : string) (st : JobStore.Status) (res : Js.value)
    (err vendor : option string) (updated : Z) : JobStore.JobDoc :=
  {| JobStore.requestId := id; JobStore.status := st;
     JobStore.payload := Js.JObj [("type", Js.JStr "async")];
     JobStore.result := res; JobStore.error := err; JobStore.vendor := vendor;
     JobStore.createdAt := 1000; JobStore.updatedAt := updated |}.

Definition pending_doc : JobStore.JobDoc :=
  doc uuid JobStore.pending Js.JNull None None 1000.

(** A job that failed at the instant 2000. *)
Definition failed_doc : JobStore.JobDoc :=
  doc uuid JobStore.failed Js.JNull (Some "vendor down") (Some "asyncVendor") 2000.

(** A job already complete. *)
Definition complete_doc : JobStore.JobDoc :=
  doc uuid JobStore.complete (Js.JNum 7) None (Some "asyncVendor") 2000.

(** A job sent to the asynchronous vendor at the instant 2000. *)
Definition waiting_doc : JobStore.JobDoc :=
  doc uuid JobStore.processing Js.JNull None (Some "asyncVendor") 2000.

(** The text of the JSON object with the one key [type]. *)
Definition quote : string := String (ascii_of_nat 34) EmptyString.
Definition json_type (v : string) : string :=
  "{" +:+ quote +:+ "type" +:+ quote +:+ ":" +:+ quote +:+ v +:+ quote +:+ "}".

Definition config : Vendor.Configuration :=
  {| Vendor.SYNC_VENDOR_URL := None; Vendor.ASYNC_VENDOR_URL := None;
     Vendor.API_BASE_URL := None |}.

(** An environment whose vendors answer 200 after 20 ms, whose parser
    knows two payloads, and whose timers fire on time. *)
Definition env : Env :=
  {| JSON_parse := λ s,
       if String.eqb s (json_type "async")
       then Some (Js.JObj [("type", Js.JStr "async")])
       else if String.eqb s (json_type "sync")
       then Some (Js.JObj [("type", Js.JStr "sync")])
       else None;
     toISOString := λ _, "2024-01-01T00:00:00.000Z";
     cleanObject := λ v, v;
     network := λ _, {| reply_after := 20;
                        reply_result := Response 200 (Js.JObj [("ok", Js.JBool true)]) |};
     wake := RateLimiter.ceil_wake |}.

(** The same, with vendors that answer 500. *)
Definition down_env : Env :=
  {| JSON_parse := JSON_parse env;
     toISOString := toISOString env;
     cleanObject := cleanObject env;
     network := λ _, {| reply_after := 20;
                        reply_result :=
                          AxiosError (Some "Internal vendor error")
                            "Request failed with status code 500" |};
     wake := wake env |}.

Definition world (t : Z) (s : JobStore.Store) : World :=
  {| now := t; jobs := s; cache := ∅; posts := []; acked := [];
     rateLimiters := Vendor.initial_rateLimiters config 0 |}.

Definition message : Worker.QueueMessage :=
  {| Worker.id := "1700000000000-0"; Worker.msg_requestId := uuid;
     Worker.msg_payload := json_type "sync";
     Worker.msg_timestamp := "2024-01-01T00:00:00.000Z" |}.

Definition webhook (id : string) (st : option JobStore.Status)
    (res : Js.value) (err : option string) : Server.WebhookBody :=
  {| Server.wb_requestId := Some id; Server.wb_result := res;
     Server.wb_status := st; Server.wb_error := err |}.

(** An operation that fails after 10 ms and leaves the world alone. *)
Definition failing_op (w : unit) : unit * @CircuitBreaker.Settled unit string :=
  (w, CircuitBreaker.mkSettled 10 (inl "boom")).

(** An operation that counts its invocations and succeeds after 10 ms. *)
Definition counting_op (w : nat) : nat * @CircuitBreaker.Settled unit string :=
  (S w, CircuitBreaker.mkSettled 10 (inr tt)).

Definition after_failure (o : CircuitBreaker.CircuitBreakerOptions) (t : Z)
    (b : CircuitBreaker.t) : CircuitBreaker.t :=
  snd (fst (CircuitBreaker.execute o failing_op t b tt)).

(** The breaker of a service after two failed calls, at the instants 100
    and 200, and as the third call, at 300, is started. *)
Definition two_failures (o : CircuitBreaker.CircuitBreakerOptions)
  : CircuitBreaker.t :=
  after_failure o 200 (after_failure o 100 (CircuitBreaker.new 0)).

Definition third_call (o : CircuitBreaker.CircuitBreakerOptions)
  : CircuitBreaker.t :=
  CircuitBreaker.begin_request o 300 (two_failures o).

(** The breaker of the vendor API after three failed calls: it is open,
    and the last failure was recorded at the instant 310. *)
Definition open_breaker : CircuitBreaker.t :=
  after_failure CircuitBreaker.VENDOR_API 300
    (two_failures CircuitBreaker.VENDOR_API).

End Examples.

(** ** More concrete data *)

Module MoreExamples.

Import Sys.


(** A bucket of one token per second that was emptied at the instant
    1000. *)
Definition empty_bucket : RateLimiter.t :=
  {| RateLimiter.tokens := 0; RateLimiter.capacity := 60;
     RateLimiter.refillRate := 1; RateLimiter.lastRefill := 1000 |}.

Definition uuid2_job : JobStore.Job :=
  {| JobStore.job_requestId := Examples.uuid2;
     JobStore.job_status := JobStore.pending;
     JobStore.job_payload := Js.JObj [("type", Js.JStr "sync")];
     JobStore.job_result := Js.JUndefined; JobStore.job_error := None;
     JobStore.job_createdAt := 2000; JobStore.job_updatedAt := 2000;
     JobStore.job_vendor := None |}.

(** A message whose payload is not JSON, and one for the asynchronous
    vendor. *)
Definition garbled_message : Worker.QueueMessage :=
  {| Worker.id := "1700000000001-0"; Worker.msg_requestId := Examples.uuid;
     Worker.msg_payload := "{type:";
     Worker.msg_timestamp := "2024-01-01T00:00:00.000Z" |}.




End MoreExamples.

(** * Properties *)

(** ** The repository *)

Module JobStoreFacts.

Import JobStore.

(** [trim] removes all the white space around: a second [trim] changes
    nothing. *)
Lemma trim_end_idempotent s : Js.trim_end (Js.trim_end s) = Js.trim_end s.
Proof.
  induction s as [|c s IH]; [reflexivity|]. cbn [Js.trim_end].
  destruct (Js.trim_end s) as [|c' kept] eqn:Hs.
  - destruct (Js.is_space c) eqn:Hc; [reflexivity|].
    cbn [Js.trim_end]. by rewrite Hc.
  - change (Js.trim_end (String c (String c' kept)))
      with (match Js.trim_end (String c' kept) with
            | EmptyString =>
                if Js.is_space c then EmptyString else String c EmptyString
            | String a b => String c (String a b)
            end).
    by rewrite IH.
Qed.

Lemma trim_start_shape s :
  Js.trim_start s = EmptyString
  ∨ ∃ c rest, Js.trim_start s = String c rest ∧ Js.is_space c = false.
Proof.
  induction s as [|c s IH]; [by left|]. cbn [Js.trim_start].
  destruct (Js.is_space c) eqn:Hc; [exact IH|]. right. by exists c, s.
Qed.

Lemma trim_idempotent s : Js.trim (Js.trim s) = Js.trim s.
Proof.
  unfold Js.trim. destruct (trim_start_shape s) as [->|(c & rest & -> & Hc)];
    [reflexivity|].
  assert (∃ kept, Js.trim_end (String c rest) = String c kept) as [kept Hk].
  { cbn [Js.trim_end]. destruct (Js.trim_end rest); [|by eexists].
    rewrite Hc. by eexists. }
  rewrite Hk. cbn [Js.trim_start]. rewrite Hc, <- Hk.
  apply trim_end_idempotent.
Qed.

Lemma first_with_app_miss key (pre post : Store) :
  first_with key pre = None →
  first_with key (pre ++ post) = first_with key post.
Proof.
  induction pre as [|x pre IH]; simpl; [done|].
  destruct (String.eqb (requestId x) key); [done|exact IH].
Qed.

Lemma first_with_Some_id key (s : Store) d :
  first_with key s = Some d → requestId d = key.
Proof.
  induction s as [|x s IH]; simpl; [done|].
  destruct (String.eqb_spec (requestId x) key) as [Hx|Hx]; [|exact IH].
  intros [= <-]. exact Hx.
Qed.

Lemma first_with_None_iff key (s : Store) :
  first_with key s = None ↔ ∀ d, In d s → requestId d ≠ key.
Proof.
  induction s as [|x s IH]; simpl.
  - split; [intros _ d []|done].
  - destruct (String.eqb_spec (requestId x) key) as [Hx|Hx].
    + split; [done|]. intros H. exfalso. by apply (H x); [left|].
    + rewrite IH. split.
      * intros H d [<-|Hd]; [done|by apply H].
      * intros H d Hd. apply H. by right.
Qed.



Lemma findOne_Some_In id (s : Store) d : findOne id s = Some d → In d s.
Proof.
  unfold findOne. generalize (cast_requestId id). intros key.
  induction s as [|x s IH]; simpl; [done|].
  destruct (String.eqb (requestId x) key).
  - intros [= <-]. by left.
  - intros H. right. by apply IH.
Qed.

Lemma findOne_None_iff id (s : Store) :
  findOne id s = None ↔ ∀ d, In d s → requestId d ≠ Js.trim id.
Proof. apply first_with_None_iff. Qed.

(** An identifier finds what its trimmed form finds. *)
Lemma findOne_trim id (s : Store) : findOne (Js.trim id) s = findOne id s.
Proof. unfold findOne, cast_requestId. by rewrite trim_idempotent. Qed.

(** [updateOne] on a key that no document carries. *)
Lemma updateOne_miss id set (s : Store) :
  findOne id s = None → updateOne id set s = (0%nat, s).
Proof.
  unfold findOne, updateOne. generalize (cast_requestId id). intros key.
  induction s as [|x s IH]; simpl; [done|].
  destruct (String.eqb (requestId x) key); [done|].
  intros H. by rewrite (IH H).
Qed.

(** [updateOne] rewrites the first document that carries the key, in
    place. *)
Lemma updateOne_hit id set (s : Store) d :
  findOne id s = Some d →
  ∃ pre post, s = pre ++ d :: post ∧ findOne id pre = None
              ∧ updateOne id set s = (1%nat, pre ++ set d :: post).
Proof.
  unfold findOne, updateOne. generalize (cast_requestId id). intros key.
  induction s as [|x s IH]; simpl; [done|].
  destruct (String.eqb (requestId x) key) eqn:Hx.
  - intros [= <-]. by exists [], s.
  - intros H. destruct (IH H) as (pre & post & -> & Hpre & Hup).
    exists (x :: pre), post. simpl. by rewrite Hx, Hup.
Qed.

Lemma updateResult_miss now id st res err (s : Store) :
  findOne id s = None →
  updateResult now id st res err s = inl (FailedToUpdateResult (not_found id)).
Proof. intros H. unfold updateResult. by rewrite (updateOne_miss _ _ _ H). Qed.

Lemma updateResult_hit now id st res err (s : Store) d :
  findOne id s = Some d →
  ∃ pre post, s = pre ++ d :: post ∧ findOne id pre = None
    ∧ updateResult now id st res err s
      = inr (pre ++ updateData now st res err d :: post).
Proof.
  intros H.
  destruct (updateOne_hit id (updateData now st res err) s d H)
    as (pre & post & Hs & Hpre & Hup).
  exists pre, post. unfold updateResult. by rewrite Hup.
Qed.

(** C10: [updateResult] on a stored job rewrites that document in place
    and nothing else; in the document it sets [status] and [updatedAt],
    sets [result] only when a result is supplied (not [undefined]), sets
    [error] only when a non-empty error is supplied, and keeps [payload],
    [vendor], [requestId] and [createdAt]; so a job that had failed and is
    overwritten as complete, without an error, keeps its old error
    string. *)
Theorem updateResult_frame now id st res err (s : Store) d :
  findOne id s = Some d →
  ∃ pre post d',
    s = pre ++ d :: post
    ∧ updateResult now id st res err s = inr (pre ++ d' :: post)
    ∧ status d' = st ∧ updatedAt d' = now
    ∧ (res = Js.JUndefined → result d' = result d)
    ∧ (res ≠ Js.JUndefined → result d' = res)
    ∧ (err = None ∨ err = Some EmptyString → error d' = error d)
    ∧ (∀ e, err = Some e → e ≠ EmptyString → error d' = Some e)
    ∧ payload d' = payload d ∧ vendor d' = vendor d
    ∧ requestId d' = requestId d ∧ createdAt d' = createdAt d
    ∧ (status d = failed → st = complete → err = None → error d' = error d).
Proof.
  intros H.
  destruct (updateResult_hit now id st res err s d H)
    as (pre & post & Hs & _ & Hup).
  exists pre, post, (updateData now st res err d).
  repeat split; try done.
  - by intros ->.
  - intros Hres. simpl. by destruct res.
  - intros [-> | ->]; reflexivity.
  - intros e -> He. simpl.
    destruct (String.eqb_spec e EmptyString); [done|reflexivity].
  - by intros _ _ ->.
Qed.

Lemma updateResult_frame_witness :
  ∃ d', updateResult 3000 Examples.uuid complete (Js.JNum 7) None
          [Examples.failed_doc] = inr [d']
        ∧ status d' = complete ∧ error d' = Some "vendor down".
Proof.
  destruct (updateResult_frame 3000 Examples.uuid complete (Js.JNum 7) None
              [Examples.failed_doc] Examples.failed_doc eq_refl)
    as (pre & post & d' & Hs & Hup & Hst & _ & _ & _ & _ & _ & _ & _ & _ & _ & Herr).
  destruct pre as [|x pre]; simpl in Hs.
  - injection Hs as <-. exists d'. split; [exact Hup|]. split; [exact Hst|].
    exact (Herr eq_refl eq_refl eq_refl).
  - injection Hs as _ Hs. destruct pre; discriminate Hs.
Defined.

Lemma validate_requestId_bad (d : JobDoc) :
  uuid_regex_test (requestId d) = false → validate_requestId d ≠ [].
Proof.
  unfold validate_requestId. intros ->.
  destruct (String.eqb (requestId d) EmptyString); discriminate.
Qed.

Lemma validate_payload_bad (d : JobDoc) :
  payload_validator (payload d) = false → validate_payload d ≠ [].
Proof.
  unfold validate_payload. intros ->.
  destruct (Js.nullish (payload d)); discriminate.
Qed.

Lemma create_invalid job (s : Store) :
  validate (new_JobModel job) ≠ [] →
  create job s = inl (ValidationFailed (validate (new_JobModel job))).
Proof.
  unfold create. cbv zeta. intros H.
  destruct (validate (new_JobModel job)); [by destruct H|reflexivity].
Qed.

(** C9, as stated, fails: an identifier with a space in front does not
    match the regular expression, yet [create] accepts the job, because
    the schema trims [requestId] before it validates. *)
Lemma create_accepts_padded_requestId :
  ¬ (∀ job (s : Store),
       uuid_regex_test (job_requestId job) = false →
       ∃ ms, create job s = inl (ValidationFailed ms)).
Proof.
  intros H.
  destruct (H Examples.padded_job [] eq_refl) as [ms Hms].
  vm_compute in Hms. discriminate Hms.
Qed.

(** C9, amended: [create] rejects with the validation error any job whose
    [requestId], trimmed of surrounding white space, does not match the
    regular expression, or whose payload is [null] or not an object; it
    rejects with the duplicate error any job that passes the validators and
    the [pre('save')] rules and whose trimmed [requestId] is already
    stored; a rejection throws and leaves the world as it was, and only an
    accepted job is appended. *)
Theorem create_rejections job (s : Store) :
  (uuid_regex_test (Js.trim (job_requestId job)) = false
   ∨ payload_validator (job_payload job) = false →
   ∃ ms, ms ≠ [] ∧ create job s = inl (ValidationFailed ms))
  ∧ (validate (new_JobModel job) = [] → pre_save (new_JobModel job) = None →
     is_Some (findOne (Js.trim (job_requestId job)) s) →
     create job s = inl (AlreadyExists (job_requestId job)))
  ∧ (∀ e, create job s = inl e →
     ∀ w, Sys.jobs w = s →
          Sys.repo (create job) w = (Sys.Throw (message e), w))
  ∧ (∀ s', create job s = inr s' → s' = s ++ [inserted (new_JobModel job)]).
Proof.
  repeat split.
  - intros Hbad.
    assert (validate (new_JobModel job) ≠ []) as Hv.
    { unfold validate. destruct Hbad as [Hid|Hp].
      + pose proof (validate_requestId_bad (new_JobModel job) Hid) as Hne.
        by destruct (validate_requestId (new_JobModel job)).
      + pose proof (validate_payload_bad (new_JobModel job) Hp) as Hne.
        destruct (validate_requestId (new_JobModel job)); [|done].
        by destruct (validate_payload (new_JobModel job)). }
    exists (validate (new_JobModel job)). split; [exact Hv|].
    by apply create_invalid.
  - intros Hv Hp [d Hd]. unfold create. cbv zeta. rewrite Hv, Hp.
    change (requestId (new_JobModel job)) with (Js.trim (job_requestId job)).
    unfold findOne, cast_requestId in Hd. rewrite trim_idempotent in Hd.
    by rewrite Hd.
  - intros e He w <-. unfold Sys.repo. by rewrite He.
  - unfold create. cbv zeta.
    destruct (validate (new_JobModel job)); [|done].
    destruct (pre_save (new_JobModel job)); [done|].
    destruct (first_with _ s); [done|]. by intros s' [= <-].
Qed.

Lemma create_rejections_witness :
  (∃ ms, ms ≠ []
     ∧ create (mkJob "not-a-uuid" pending (Js.JObj []) Js.JUndefined None 0 0 None) []
       = inl (ValidationFailed ms))
  ∧ create Examples.padded_job [Examples.pending_doc]
    = inl (AlreadyExists (job_requestId Examples.padded_job)).
Proof.
  split.
  - apply (create_rejections
             (mkJob "not-a-uuid" pending (Js.JObj []) Js.JUndefined None 0 0 None) []).
    left. reflexivity.
  - apply (create_rejections Examples.padded_job [Examples.pending_doc]);
      [reflexivity|reflexivity|]. exists Examples.pending_doc. reflexivity.
Defined.

(** C1 at a failing input: the job is created through [save], so the
    rules of [pre('save')] hold at first; a webhook that reports [failed]
    without an error string, or that reports nothing but the identifier,
    is written by [updateOne], which runs no such rule, and the stored job
    ends as [failed] with no error, or as [complete] with neither result
    nor error: documents that [pre('save')] itself refuses. *)
Theorem webhook_stores_what_pre_save_refuses :
  let w := Examples.world 5000 [Examples.pending_doc] in
  let bad_failed := Examples.doc Examples.uuid failed Js.JNull None None 5000 in
  let bad_complete := Examples.doc Examples.uuid complete Js.JNull None None 5000 in
  create Examples.pending_job [] = inr [Examples.pending_doc]
  ∧ Sys.jobs (snd (Server.handleVendorWebhook "asyncVendor"
                     (Examples.webhook Examples.uuid (Some failed) Js.JUndefined None) w))
    = [bad_failed]
  ∧ Sys.jobs (snd (Server.handleVendorWebhook "asyncVendor"
                     (Examples.webhook Examples.uuid None Js.JUndefined None) w))
    = [bad_complete]
  ∧ pre_save bad_failed = Some "Failed jobs must have an error message"
  ∧ pre_save bad_complete = Some "Complete jobs must have either result or error".
Proof. repeat split; vm_compute; reflexivity. Qed.

End JobStoreFacts.

(** ** The server: webhook intake and timeout sweeper *)

Module ServerFacts.

Import Sys JobStore Server.

(** Unfolding of the monad at a world. *)
Lemma bind_eq {A B} (m : M A) (k : A → M B) w :
  (m ≫= k) w = match m w with
               | (Return a, w') => k a w'
               | (Throw msg, w') => (Throw msg, w')
               | (Pending, w') => (Pending, w')
               end.
Proof. reflexivity. Qed.

Lemma updateResult_unknown id st res err w :
  findOne id (jobs w) = None →
  Server.updateResult id st res err w
  = (Throw (message (FailedToUpdateResult (not_found id))), w).
Proof.
  intros H. unfold Server.updateResult. rewrite bind_eq. simpl.
  unfold repo. by rewrite (JobStoreFacts.updateResult_miss _ _ _ _ _ _ H).
Qed.

Lemma updateResult_known id st res err w d :
  findOne id (jobs w) = Some d →
  ∃ pre post, jobs w = pre ++ d :: post ∧ findOne id pre = None
    ∧ Server.updateResult id st res err w
      = (Return tt, set_jobs (pre ++ updateData (now w) st res err d :: post) w).
Proof.
  intros H.
  destruct (JobStoreFacts.updateResult_hit (now w) id st res err _ _ H)
    as (pre & post & Hs & Hpre & Hup).
  exists pre, post. split; [exact Hs|]. split; [exact Hpre|].
  unfold Server.updateResult. rewrite bind_eq. simpl.
  unfold repo. by rewrite Hup.
Qed.

(** C4, as stated, fails: the webhook of a job that is not stored is
    answered with status 500, outside the 400 class. *)
Lemma webhook_unknown_job_not_4xx :
  ¬ (∀ vendor b w id,
       wb_requestId b = Some id → findOne id (jobs w) = None →
       ∃ r w', handleVendorWebhook vendor b w = (Return r, w')
               ∧ 400 ≤ code r < 500).
Proof.
  intros H.
  destruct (H "asyncVendor"
              (Examples.webhook Examples.uuid (Some complete) (Js.JNum 1) None)
              (Examples.world 5000 []) Examples.uuid eq_refl eq_refl)
    as (r & w' & Hr & Hcode).
  vm_compute in Hr. injection Hr as <- _. simpl in Hcode. lia.
Qed.

(** C4, amended: for every webhook delivery whose (non-empty) [requestId]
    matches no stored job, [updateResult] throws its not-found error and
    the handler answers with status 500 and the body
    [{ error: 'Internal server error' }], leaving the store and the cache
    as they were. *)
Theorem webhook_unknown_requestId vendor b w id :
  wb_requestId b = Some id → id ≠ EmptyString →
  findOne id (jobs w) = None →
  handleVendorWebhook vendor b w
  = (Return {| code := 500; body := error_body "Internal server error" |}, w).
Proof.
  intros Hid Hne Hmiss. unfold handleVendorWebhook, try_catch. rewrite Hid.
  destruct (String.eqb_spec id EmptyString) as [->|_]; [done|].
  rewrite bind_eq, (updateResult_unknown _ _ _ _ _ Hmiss). reflexivity.
Qed.

Lemma webhook_unknown_requestId_witness :
  handleVendorWebhook "asyncVendor"
    (Examples.webhook Examples.uuid2 None (Js.JNum 1) None)
    (Examples.world 5000 [Examples.waiting_doc])
  = (Return {| code := 500; body := error_body "Internal server error" |},
     Examples.world 5000 [Examples.waiting_doc]).
Proof.
  apply (webhook_unknown_requestId "asyncVendor" _ _ Examples.uuid2);
    [reflexivity|discriminate|reflexivity].
Defined.

Lemma first_with_unique (s : Store) d :
  NoDup (requestId <$> s) → d ∈ s → first_with (requestId d) s = Some d.
Proof.
  induction s as [|x s IH].
  - intros _ H. by apply elem_of_nil in H.
  - rewrite fmap_cons, NoDup_cons. intros [Hx Hs] Hd. cbn [first_with].
    destruct (String.eqb_spec (requestId x) (requestId d)) as [Heq|Hne].
    + apply elem_of_cons in Hd as [->|Hd]; [done|].
      exfalso. apply Hx. rewrite Heq. by apply list_elem_of_fmap_2.
    + apply elem_of_cons in Hd as [->|Hd]; [done|]. by apply IH.
Qed.

(** A stored document is found under its own identifier, which is
    trimmed. *)
Lemma findOne_unique (s : Store) d :
  NoDup (requestId <$> s) → trimmed_ids s → d ∈ s →
  findOne (requestId d) s = Some d.
Proof.
  intros Hnd Htrim Hd. unfold findOne, cast_requestId.
  rewrite (Htrim d Hd). by apply first_with_unique.
Qed.

Lemma timeoutIfStale_spec cutoff job w :
  NoDup (requestId <$> jobs w) → trimmed_ids (jobs w) → job ∈ jobs w →
  ∃ w', timeoutIfStale cutoff job w = (Return tt, w')
    ∧ now w' = now w
    ∧ jobs w' = swept_by [job] cutoff (now w) <$> jobs w.
Proof.
  intros Hnd Htrim Hin. unfold timeoutIfStale.
  assert (∀ d, d ∈ jobs w → requestId d = requestId job → d = job) as Hsame.
  { intros d Hd Hid. pose proof (first_with_unique _ _ Hnd Hd) as H1.
    pose proof (first_with_unique _ _ Hnd Hin) as H2. rewrite Hid in H1. congruence. }
  destruct (is_stale cutoff job) eqn:Hst.
  - destruct (updateResult_known (requestId job) failed Js.JNull
                (Some timeout_message) w job (findOne_unique _ _ Hnd Htrim Hin))
      as (pre & post & Hs & Hpre & Hup).
    eexists. rewrite bind_eq, Hup. split; [reflexivity|]. split; [reflexivity|].
    simpl. rewrite Hs, fmap_app, fmap_cons.
    rewrite Hs in Hnd, Hsame.
    f_equal; [|f_equal].
    + rewrite <- (list_fmap_id pre) at 1. apply list_fmap_ext.
      intros i d Hd. unfold swept_by.
      destruct (bool_decide_reflect (requestId d ∈ requestId <$> [job])) as [Hm|Hm];
        [|done].
      apply list_elem_of_fmap in Hm as (d' & Hid & Hd').
      apply list_elem_of_singleton in Hd'. subst d'.
      exfalso.
      apply (proj1 (JobStoreFacts.findOne_None_iff _ _) Hpre d);
        [|by rewrite (Htrim job Hin)].
      apply list_elem_of_In. by eapply list_elem_of_lookup_2.
    + unfold swept_by. rewrite Hst, bool_decide_true; [done|].
      apply list_elem_of_fmap_2. by apply list_elem_of_singleton.
    + rewrite <- (list_fmap_id post) at 1. apply list_fmap_ext.
      intros i d Hd. unfold swept_by.
      destruct (bool_decide_reflect (requestId d ∈ requestId <$> [job])) as [Hm|Hm];
        [|done].
      apply list_elem_of_fmap in Hm as (d' & Hid & Hd').
      apply list_elem_of_singleton in Hd'. subst d'.
      exfalso. rewrite fmap_app, fmap_cons in Hnd.
      apply NoDup_app in Hnd as (_ & _ & Hnd).
      apply NoDup_cons in Hnd as [Hnd _]. apply Hnd. rewrite <- Hid.
      apply list_elem_of_fmap_2. by eapply list_elem_of_lookup_2.
  - exists w. split; [reflexivity|]. split; [reflexivity|].
    rewrite <- (list_fmap_id (jobs w)) at 1. apply list_fmap_ext.
    intros i d Hd. unfold swept_by.
    destruct (bool_decide_reflect (requestId d ∈ requestId <$> [job])) as [Hm|Hm];
      [|done].
    apply list_elem_of_fmap in Hm as (d' & Hid & Hd').
    apply list_elem_of_singleton in Hd'. subst d'.
    assert (d = job) as ->.
    { apply Hsame; [|done]. by eapply list_elem_of_lookup_2. }
    by rewrite Hst.
Qed.

Lemma requestId_swept_by L cutoff t d :
  requestId (swept_by L cutoff t d) = requestId d.
Proof. unfold swept_by. by destruct (_ && _). Qed.

Lemma ids_swept_by L cutoff t (s : Store) :
  requestId <$> (swept_by L cutoff t <$> s) = requestId <$> s.
Proof.
  rewrite <- list_fmap_compose. apply list_fmap_ext.
  intros i d _. apply requestId_swept_by.
Qed.

Lemma trimmed_swept_by L cutoff t (s : Store) :
  trimmed_ids s → trimmed_ids (swept_by L cutoff t <$> s).
Proof.
  intros Htrim d Hd. apply list_elem_of_fmap in Hd as (d0 & -> & Hd0).
  rewrite requestId_swept_by. by apply Htrim.
Qed.

Lemma swept_by_other L cutoff t d :
  requestId d ∉ requestId <$> L → swept_by L cutoff t d = d.
Proof. intros H. unfold swept_by. by rewrite bool_decide_false. Qed.

(** The loop of the sweeper over any list of found jobs. *)
Lemma sweep_loop cutoff L : ∀ w,
  NoDup (requestId <$> jobs w) → trimmed_ids (jobs w) →
  NoDup (requestId <$> L) →
  (∀ d, d ∈ L → d ∈ jobs w) →
  ∃ w', for_each L (timeoutIfStale cutoff) w = (Return tt, w')
    ∧ now w' = now w
    ∧ jobs w' = swept_by L cutoff (now w) <$> jobs w.
Proof.
  induction L as [|x L IH]; intros w Hnd Htrim HL Hsub.
  - exists w. split; [reflexivity|]. split; [reflexivity|].
    rewrite <- (list_fmap_id (jobs w)) at 1. apply list_fmap_ext.
    intros i d _. symmetry. apply swept_by_other.
    rewrite fmap_nil. apply not_elem_of_nil.
  - rewrite fmap_cons in HL. apply NoDup_cons in HL as [Hx HL].
    destruct (timeoutIfStale_spec cutoff x w Hnd Htrim)
      as (w1 & H1 & Hnow1 & Hjobs1).
    { apply Hsub. by left. }
    destruct (IH w1) as (w' & H' & Hnow' & Hjobs'); [| | done |..].
    + by rewrite Hjobs1, ids_swept_by.
    + rewrite Hjobs1. by apply trimmed_swept_by.
    + intros d Hd. rewrite Hjobs1.
      apply (list_elem_of_fmap_2' _ _ d); [apply Hsub; by right|].
      symmetry. apply swept_by_other. rewrite fmap_cons, fmap_nil.
      intros Hin. apply list_elem_of_singleton in Hin.
      apply Hx. rewrite <- Hin. by apply list_elem_of_fmap_2.
    + exists w'. cbn [for_each]. change (bind ?m ?k) with (m ≫= k).
      rewrite bind_eq, H1. split; [exact H'|]. split; [congruence|].
      rewrite Hjobs', Hjobs1, Hnow1, <- list_fmap_compose.
      apply list_fmap_ext. intros i d _. simpl.
      destruct (decide (requestId d = requestId x)) as [Hid|Hid].
      * unfold swept_by at 2 3.
        rewrite !bool_decide_true;
          [| rewrite fmap_cons; apply elem_of_cons; by left
           | rewrite fmap_cons, fmap_nil; by apply list_elem_of_singleton ].
        simpl. destruct (is_stale cutoff d); apply swept_by_other;
          simpl; by rewrite Hid.
      * rewrite (swept_by_other [x]).
        2:{ rewrite fmap_cons, fmap_nil. by intros ?%list_elem_of_singleton. }
        unfold swept_by.
        rewrite (bool_decide_ext (requestId d ∈ requestId <$> x :: L)
                   (requestId d ∈ requestId <$> L)); [done|].
        rewrite fmap_cons, elem_of_cons. split; [by intros [?|?]|by right].
Qed.

Lemma sublist_limited {A} n (l : list A) : limited n l `sublist_of` l.
Proof. unfold limited. destruct (n =? 0)%nat; [done|apply sublist_take]. Qed.

Lemma limited_all {A} n (l : list A) : (length l ≤ n)%nat → limited n l = l.
Proof.
  intros Hlen. unfold limited. destruct (n =? 0)%nat; [done|].
  by apply take_ge.
Qed.

Lemma findByStatus_elem st n (s : Store) d :
  d ∈ findByStatus st n s → d ∈ s ∧ status d = st.
Proof.
  unfold findByStatus, JobModel_findByStatus. intros Hd.
  apply (λ H, elem_of_sublist _ _ _ H (sublist_limited _ _)) in Hd.
  rewrite merge_sort_Permutation in Hd.
  apply list_elem_of_filter in Hd as [Hst Hd]. done.
Qed.

Lemma findByStatus_NoDup st n (s : Store) :
  NoDup (requestId <$> s) → NoDup (requestId <$> findByStatus st n s).
Proof.
  intros Hnd. unfold findByStatus, JobModel_findByStatus.
  eapply sublist_NoDup; [|apply fmap_sublist, sublist_limited].
  rewrite merge_sort_Permutation.
  eapply sublist_NoDup; [exact Hnd|]. apply fmap_sublist, sublist_filter.
Qed.

Lemma findByStatus_all st n (s : Store) d :
  (length (filter (λ d, status d = st) s) ≤ n)%nat →
  d ∈ s → status d = st → d ∈ findByStatus st n s.
Proof.
  intros Hlen Hd Hst. unfold findByStatus, JobModel_findByStatus.
  rewrite limited_all.
  - rewrite merge_sort_Permutation. by apply list_elem_of_filter.
  - by rewrite merge_sort_Permutation.
Qed.

(** C7, amended: a run of the sweeper changes no job other than the
    processing jobs of [asyncVendor] whose [updatedAt] lies strictly more
    than five minutes back (so no job of the synchronous vendor, and no job
    exactly five minutes old); and when at most 100 jobs are processing,
    it marks every such job as [failed] with the error
    "Job timed out - no webhook received".  The collection has one document
    per [requestId], as the unique index demands, and every stored
    [requestId] is trimmed, as [create] stores it. *)
Theorem sweeper_run w :
  NoDup (requestId <$> jobs w) → trimmed_ids (jobs w) →
  ∃ w', checkAndTimeoutStaleJobs w = (Return tt, w')
    ∧ length (jobs w') = length (jobs w)
    ∧ (∀ i d, jobs w !! i = Some d →
         ¬ (status d = processing ∧ vendor d = Some "asyncVendor"
            ∧ updatedAt d < now w - 300000) →
         jobs w' !! i = Some d)
    ∧ ((length (filter (λ d, status d = processing) (jobs w)) ≤ 100)%nat →
       jobs w' =
       (λ d, if bool_decide (status d = processing)
                && bool_decide (vendor d = Some "asyncVendor")
                && (updatedAt d <? now w - 300000)
             then {| requestId := requestId d; status := failed;
                     payload := payload d; result := Js.JNull;
                     error := Some "Job timed out - no webhook received";
                     vendor := vendor d; createdAt := createdAt d;
                     updatedAt := now w |}
             else d) <$> jobs w).
Proof.
  intros Hnd Htrim.
  set (L := findByStatus processing default_limit (jobs w)).
  destruct (sweep_loop (now w - staleJobsTimeout) L w Hnd Htrim)
    as (w' & Hrun & Hnow & Hjobs).
  { by apply findByStatus_NoDup. }
  { intros d Hd. by apply findByStatus_elem in Hd as [Hd _]. }
  assert (∀ d, d ∈ jobs w → requestId d ∈ requestId <$> L → status d = processing)
    as HinL.
  { intros d Hd Hm. apply list_elem_of_fmap in Hm as (d' & Hid & Hd').
    apply findByStatus_elem in Hd' as [Hd' Hst].
    pose proof (first_with_unique _ _ Hnd Hd) as H1.
    pose proof (first_with_unique _ _ Hnd Hd') as H2.
    rewrite Hid in H1. congruence. }
  exists w'. split.
  { unfold checkAndTimeoutStaleJobs, try_catch. rewrite bind_eq. simpl.
    fold L. by rewrite Hrun. }
  split; [by rewrite Hjobs, length_fmap|]. split.
  - intros i d Hi Hnot. rewrite Hjobs, list_lookup_fmap, Hi. simpl. f_equal.
    unfold swept_by, is_stale, staleJobsTimeout.
    destruct (bool_decide_reflect (requestId d ∈ requestId <$> L)) as [Hm|Hm];
      [|done].
    destruct (Z.ltb_spec (updatedAt d) (now w - 5 * 60 * 1000)) as [Hlt|Hge];
      [|done].
    destruct (bool_decide_reflect (vendor d = Some "asyncVendor")) as [Hv|Hv];
      [|done].
    exfalso. apply Hnot. split; [|split; [done|lia]].
    apply HinL; [|done]. by eapply list_elem_of_lookup_2.
  - intros Hlen. rewrite Hjobs. apply list_fmap_ext. intros i d Hi.
    apply list_elem_of_lookup_2 in Hi.
    unfold swept_by, is_stale, staleJobsTimeout.
    change (5 * 60 * 1000) with 300000.
    rewrite (bool_decide_ext (requestId d ∈ requestId <$> L) (status d = processing)).
    + destruct (bool_decide (status d = processing)),
        (bool_decide (vendor d = Some "asyncVendor")),
        (updatedAt d <? now w - 300000); reflexivity.
    + split; [by apply HinL|]. intros Hst. apply list_elem_of_fmap_2.
      by apply findByStatus_all.
Qed.

Lemma sweeper_run_witness :
  ∃ w', checkAndTimeoutStaleJobs (Examples.world 302001 [Examples.waiting_doc])
        = (Return tt, w')
    ∧ jobs w' = [Examples.doc Examples.uuid failed Js.JNull
                   (Some timeout_message) (Some "asyncVendor") 302001].
Proof.
  destruct (sweeper_run (Examples.world 302001 [Examples.waiting_doc]))
    as (w' & Hrun & _ & _ & Hall).
  { apply NoDup_singleton. }
  { intros d Hd. apply list_elem_of_singleton in Hd. subst d. reflexivity. }
  exists w'. split; [exact Hrun|].
  rewrite Hall; [reflexivity|]. simpl. lia.
Defined.

(** C7, as stated, fails: a processing job of the asynchronous vendor
    whose [updatedAt] lies exactly five minutes back is at least five
    minutes old, and a run of the sweeper leaves it as it is. *)
Lemma sweeper_spares_job_five_minutes_old :
  ¬ (∀ w d,
       NoDup (requestId <$> jobs w) → d ∈ jobs w →
       status d = processing → vendor d = Some "asyncVendor" →
       updatedAt d ≤ now w - 300000 →
       ∃ d', findOne (requestId d) (jobs (snd (checkAndTimeoutStaleJobs w)))
             = Some d'
             ∧ status d' = failed ∧ error d' = Some timeout_message).
Proof.
  intros H.
  destruct (H (Examples.world 302000 [Examples.waiting_doc]) Examples.waiting_doc)
    as (d' & Hd' & Hst & _).
  - apply NoDup_singleton.
  - by apply list_elem_of_singleton.
  - reflexivity.
  - reflexivity.
  - simpl. lia.
  - vm_compute in Hd'. injection Hd' as <-. discriminate Hst.
Qed.

End ServerFacts.

(** ** The circuit breaker *)

Module CircuitBreakerFacts.

Import CircuitBreaker.

Section Facts.

Variable options : CircuitBreakerOptions.

Lemma state_keepRecentLatencies b : state (keepRecentLatencies b) = state b.
Proof. reflexivity. Qed.

Lemma failures_onFailure now latency b :
  failures (onFailure options now latency b) = failures b + 1.
Proof. unfold onFailure. by destruct (shouldOpen _ _ _). Qed.

Lemma run_world {W T E} (op : W → W * Settled T E) now b w :
  fst (fst (run options op now b w)) = fst (op w).
Proof.
  unfold run. destruct (op w) as [w' r]. destruct (race options r) as [lat [e|v]];
    reflexivity.
Qed.

(** A breaker that only [execute] has driven is never open without a
    recorded failure: the hypothesis of the next theorem is then met. *)
Lemma operated_open_has_failure b :
  operated options b → state b = OPEN → is_Some (lastFailureTime b).
Proof.
  induction 1 as [now|W T E op now b w _ IH]; [done|].
  assert (∀ b0 : t,
            (state b0 = OPEN → is_Some (lastFailureTime b0)) →
            state (snd (fst (run options op now b0 w))) = OPEN →
            is_Some (lastFailureTime (snd (fst (run options op now b0 w)))))
    as Hrun.
  { intros b0 H0. unfold run. destruct (op w) as [w' r].
    destruct (race options r) as [lat [e|v]]; cbn [fst snd].
    - intros _. unfold onFailure. by destruct (shouldOpen _ _ _).
    - unfold onSuccess.
      cbn [state begin_request cleanupOldRequests keepRecentLatencies
           push_latency].
      destruct (state_eqb (state b0) HALF_OPEN); [done|]. exact H0. }
  unfold execute, gate.
  destruct (state_eqb (state b) OPEN) eqn:Hopen; [|by apply Hrun].
  destruct (shouldAttemptReset options now b); [|exact IH].
  by apply Hrun.
Qed.

(** The book-keeping of a call leaves the state of the breaker alone. *)
Lemma state_begin_request now b : state (begin_request options now b) = state b.
Proof. reflexivity. Qed.

(** What the call of a half-open breaker leaves: the breaker is closed by
    a success, and stays half-open or opens on a failure. *)
Lemma run_half_open {W T E} (op : W → W * Settled T E) now b w :
  state b = HALF_OPEN →
  match snd (run options op now b w) with
  | inr _ =>
      state (snd (fst (run options op now b w))) = CLOSED
      ∧ failures (snd (fst (run options op now b w))) = 0
  | inl _ =>
      state (snd (fst (run options op now b w))) ≠ CLOSED
      ∧ failures (snd (fst (run options op now b w))) = failures b + 1
  end.
Proof.
  intros Hst. unfold run. destruct (op w) as [w' r].
  destruct (race options r) as [lat [e|v]]; cbn [fst snd].
  - split; [|by rewrite failures_onFailure]. unfold onFailure.
    destruct (shouldOpen _ _ _); [done|].
    cbn [state keepRecentLatencies push_latency begin_request
         cleanupOldRequests]. by rewrite Hst.
  - unfold onSuccess.
    cbn [state keepRecentLatencies push_latency begin_request
         cleanupOldRequests]. by rewrite Hst.
Qed.

(** C5: once the breaker is open, with a last failure recorded at [t],
    every call of [execute] made before [recoveryTimeout] has elapsed since
    [t] is rejected with the circuit-open error, the operation is not
    invoked (the breaker and the world are as before, whatever the
    operation); and when at least [recoveryTimeout] has elapsed, [execute]
    moves the breaker to [HALF_OPEN] and runs the operation: the breaker
    that the call goes through is half-open since [now], with the counters
    it had, the operation is invoked, and the call of a half-open breaker
    it is: a value returned closes the breaker and resets the count of
    failures, an error or a timeout counts one more failure and does not
    close it. *)
Theorem open_breaker_fails_fast {W T E} (op : W → W * Settled T E) now b w t :
  state b = OPEN → lastFailureTime b = Some t →
  (now - t < recoveryTimeout options →
     execute options op now b w = (w, b, inl CircuitOpen))
  ∧ (recoveryTimeout options ≤ now - t →
     gate options now b = Some (setState now HALF_OPEN b)
     ∧ execute options op now b w
       = run options op now (setState now HALF_OPEN b) w
     ∧ fst (fst (execute options op now b w)) = fst (op w)
     ∧ (∃ b1, gate options now b = Some b1
              ∧ state b1 = HALF_OPEN ∧ lastStateChange b1 = now
              ∧ failures b1 = failures b ∧ successes b1 = successes b
              ∧ totalRequests b1 = totalRequests b
              ∧ lastFailureTime b1 = Some t)
     ∧ match snd (execute options op now b w) with
       | inr _ =>
           state (snd (fst (execute options op now b w))) = CLOSED
           ∧ failures (snd (fst (execute options op now b w))) = 0
       | inl _ =>
           state (snd (fst (execute options op now b w))) ≠ CLOSED
           ∧ failures (snd (fst (execute options op now b w)))
             = failures b + 1
       end).
Proof.
  intros Hst Hlast.
  assert (gate options now b
          = if recoveryTimeout options <=? now - t
            then Some (setState now HALF_OPEN b) else None) as Hgate.
  { unfold gate, shouldAttemptReset. by rewrite Hst, Hlast. }
  split; intros Ht.
  - unfold execute. rewrite Hgate.
    destruct (Z.leb_spec (recoveryTimeout options) (now - t)); [lia|done].
  - assert (gate options now b = Some (setState now HALF_OPEN b)) as Hg.
    { rewrite Hgate.
      destruct (Z.leb_spec (recoveryTimeout options) (now - t)); [done|lia]. }
    split; [exact Hg|]. unfold execute. rewrite Hg.
    split; [reflexivity|]. split; [apply run_world|]. split.
    + exists (setState now HALF_OPEN b). by repeat split.
    + apply (run_half_open op now (setState now HALF_OPEN b) w). reflexivity.
Qed.

(** C6, as stated, fails: with the configuration [DATABASE] (threshold
    3, minimum 5) the third failure in a row brings the count to the
    threshold and the breaker stays closed. *)
Lemma threshold_met_breaker_stays_closed :
  ¬ (∀ o now latency b,
       failureThreshold o ≤ failures (onFailure o now latency b) →
       state (onFailure o now latency b) = OPEN).
Proof.
  intros H.
  specialize (H DATABASE 310 10 (Examples.third_call DATABASE)).
  vm_compute in H. discriminate H. intros [=].
Qed.

(** C6, amended: a failure that brings the failure count to at least
    [failureThreshold] opens the breaker provided that [totalRequests] has
    reached [minimumRequests]; while [totalRequests] is below
    [minimumRequests] a failure leaves the state as it is, whatever the
    count. *)
Theorem failure_opens_after_minimum_requests now latency b :
  failureThreshold options ≤ failures (onFailure options now latency b) →
  (minimumRequests options ≤ totalRequests b →
     state (onFailure options now latency b) = OPEN)
  ∧ (totalRequests b < minimumRequests options →
     state (onFailure options now latency b) = state b).
Proof.
  rewrite failures_onFailure. intros Hf.
  unfold onFailure, shouldOpen. cbn [totalRequests keepRecentLatencies push_latency failures].
  split; intros Hm.
  - destruct (Z.ltb_spec (totalRequests b) (minimumRequests options)); [lia|].
    destruct (Z.leb_spec (failureThreshold options) (failures b + 1)); [|lia].
    reflexivity.
  - destruct (Z.ltb_spec (totalRequests b) (minimumRequests options)); [|lia].
    reflexivity.
Qed.

End Facts.

Lemma open_breaker_fails_fast_witness :
  execute VENDOR_API Examples.counting_op 20000 Examples.open_breaker 0%nat
  = (0%nat, Examples.open_breaker, inl CircuitOpen)
  ∧ fst (fst (execute VENDOR_API Examples.counting_op 30310
                Examples.open_breaker 0%nat)) = 1%nat
  ∧ (∃ b1, gate VENDOR_API 30310 Examples.open_breaker = Some b1
           ∧ state b1 = HALF_OPEN)
  ∧ state (snd (fst (execute VENDOR_API Examples.counting_op 30310
                       Examples.open_breaker 0%nat))) = CLOSED.
Proof.
  split; [|split; [|split]].
  - apply (open_breaker_fails_fast VENDOR_API Examples.counting_op 20000
             Examples.open_breaker 0%nat 310 eq_refl eq_refl).
    reflexivity.
  - apply (open_breaker_fails_fast VENDOR_API Examples.counting_op 30310
             Examples.open_breaker 0%nat 310 eq_refl eq_refl).
    discriminate.
  - destruct (open_breaker_fails_fast VENDOR_API Examples.counting_op 30310
                Examples.open_breaker 0%nat 310 eq_refl eq_refl)
      as (_ & Hprobe).
    destruct Hprobe as (_ & _ & _ & (b1 & Hgate & Hstate & _) & _);
      [discriminate|].
    exists b1. split; [exact Hgate|exact Hstate].
  - destruct (open_breaker_fails_fast VENDOR_API Examples.counting_op 30310
                Examples.open_breaker 0%nat 310 eq_refl eq_refl)
      as (_ & Hprobe).
    destruct Hprobe as (_ & _ & _ & _ & Hafter); [discriminate|].
    exact (proj1 Hafter).
Defined.

Lemma failure_opens_after_minimum_requests_witness :
  state (onFailure REDIS 310 10 (Examples.third_call REDIS)) = OPEN
  ∧ state (onFailure DATABASE 310 10 (Examples.third_call DATABASE)) = CLOSED.
Proof.
  split.
  - apply (failure_opens_after_minimum_requests REDIS 310 10
             (Examples.third_call REDIS)); discriminate.
  - apply (failure_opens_after_minimum_requests DATABASE 310 10
             (Examples.third_call DATABASE)); [discriminate|reflexivity].
Defined.

End CircuitBreakerFacts.

(** ** The token bucket *)

Module RateLimiterFacts.

Import RateLimiter.

Lemma refilled_le_capacity now l : (refilled now l <= capacity l)%Q.
Proof. unfold refilled. apply Q.le_min_l. Qed.

Lemma ceil_wake_punctual : punctual ceil_wake.
Proof.
  intros now [n d]. unfold ceil_wake. simpl.
  rewrite inject_Z_plus. apply Qplus_le_r.
  unfold Qle, inject_Z. simpl. rewrite Z.mul_1_r.
  pose proof (Z.mul_div_le (- n) (Z.pos d) eq_refl). lia.
Qed.

Section Clock.

Variable wake : Z → Q → Z.

(** What a call that returns has done. *)
Lemma waitForSlot_returned fuel : ∀ now l now' l',
  waitForSlot wake fuel now l = Some (now', l') →
  ∃ l0, capacity l0 = capacity l ∧ refillRate l0 = refillRate l
        ∧ (1 <= refilled now' l0)%Q
        ∧ l' = consume (refillTokens now' l0).
Proof.
  induction fuel as [|fuel IH]; intros now l now' l'; simpl; [done|].
  destruct (Qle_bool 1 (refilled now l)) eqn:Hle.
  - intros [= <- <-]. exists l. repeat split. by apply Qle_bool_iff.
  - intros H. destruct (IH _ _ _ _ H) as (l0 & Hc & Hr & H1 & Hl').
    exists l0. repeat split; done.
Qed.

Lemma waitForSlot_returns now l :
  punctual wake → (1 <= capacity l)%Q → (0 < refillRate l)%Q →
  ∃ now' l', waitForSlot wake 2 now l = Some (now', l').
Proof.
  intros Hwake Hcap Hrate. cbn [waitForSlot].
  destruct (Qle_bool 1 (tokens (refillTokens now l))) eqn:H1; [by eexists _, _|].
  set (l1 := refillTokens now l) in *.
  set (now2 := wake now (waitTime l1)).
  assert (Qle_bool 1 (tokens (refillTokens now2 l1)) = true) as ->;
    [|by eexists _, _].
  apply Qle_bool_iff. cbn [tokens refillTokens]. unfold refilled.
  apply Q.min_glb; [exact Hcap|].
  pose proof (Hwake now (waitTime l1)) as Hw. fold now2 in Hw.
  change (lastRefill l1) with now. change (refillRate l1) with (refillRate l).
  change (capacity l1) with (capacity l) in *.
  unfold waitTime in Hw. change (refillRate l1) with (refillRate l) in Hw.
  set (T := tokens l1) in *. set (r := refillRate l) in *.
  unfold Z.sub. rewrite inject_Z_plus, inject_Z_opp.
  set (a := inject_Z now) in *. set (b := inject_Z now2) in *.
  assert (((1 - T) / r * 1000) * r == (1 - T) * 1000)%Q as Hx.
  { field. intros Hr0. rewrite Hr0 in Hrate. by apply Qlt_irrefl in Hrate. }
  assert (((1 - T) / r * 1000) * r <= (b + - a) * r)%Q as Hmul.
  { apply Qmult_le_compat_r; [lra|]. by apply Qlt_le_weak. }
  rewrite Hx in Hmul.
  assert (((b + - a) / 1000 * r) == (b + - a) * r * (1 # 1000))%Q as -> by field.
  set (z := ((b + - a) * r)%Q) in *. clearbody z. lra.
Qed.

(** More fuel changes nothing for a call that returns. *)
Lemma waitForSlot_more_fuel fuel : ∀ fuel' now l r,
  (fuel ≤ fuel')%nat → waitForSlot wake fuel now l = Some r →
  waitForSlot wake fuel' now l = Some r.
Proof.
  induction fuel as [|fuel IH]; intros fuel' now l r Hle; [done|].
  destruct fuel' as [|fuel']; [lia|]. cbn [waitForSlot].
  destruct (Qle_bool 1 (tokens (refillTokens now l))); [done|].
  apply IH. lia.
Qed.

Lemma punctual_advancing : punctual wake → advancing wake.
Proof.
  intros Hwake now delay Hdelay. pose proof (Hwake now delay) as H.
  apply Z.lt_nge. intros Hle. rewrite Zle_Qle in Hle. lra.
Qed.

(** With timers that advance, every pass that ends in a wait brings the
    bucket nearer to its token by what one millisecond refills: a bucket
    that is [n] such steps short of a token returns within [n + 1]
    passes. *)
Lemma waitForSlot_within n : ∀ now l,
  advancing wake → (1 <= capacity l)%Q → (0 < refillRate l)%Q →
  ((1 - refilled now l) * 1000 <= inject_Z (Z.of_nat n) * refillRate l)%Q →
  ∃ r, waitForSlot wake (S n) now l = Some r.
Proof.
  induction n as [|n IH]; intros now l Hwake Hcap Hrate Hshort;
    cbn [waitForSlot];
    destruct (Qle_bool 1 (tokens (refillTokens now l))) eqn:H1;
    try (by eexists).
  - exfalso. cbn [tokens refillTokens] in H1.
    assert (1 <= refilled now l)%Q as Hle.
    { change (inject_Z (Z.of_nat 0)) with 0%Q in Hshort. lra. }
    apply Qle_bool_iff in Hle. congruence.
  - set (l1 := refillTokens now l) in *.
    assert (tokens l1 < 1)%Q as Hless.
    { apply Qnot_le_lt. intros Hle. apply Qle_bool_iff in Hle. congruence. }
    assert (0 < waitTime l1)%Q as Hdelay.
    { unfold waitTime. change (refillRate l1) with (refillRate l).
      apply Qmult_lt_0_compat; [|reflexivity].
      apply Qlt_shift_div_l; [exact Hrate|]. lra. }
    pose proof (Hwake now (waitTime l1) Hdelay) as Hlater.
    set (now2 := wake now (waitTime l1)) in *.
    apply IH; [exact Hwake|exact Hcap|exact Hrate|].
    change (refillRate l1) with (refillRate l).
    unfold refilled at 1.
    change (lastRefill l1) with now. change (refillRate l1) with (refillRate l).
    change (capacity l1) with (capacity l).
    change (tokens l1) with (refilled now l) in *.
    set (T := refilled now l) in *. set (r := refillRate l) in *.
    assert (0 <= inject_Z (Z.of_nat n) * r)%Q as Hn.
    { apply Qmult_le_0_compat; [|lra].
      replace 0%Q with (inject_Z 0) by done. rewrite <- Zle_Qle. lia. }
    rewrite Nat2Z.inj_succ in Hshort. unfold Z.succ in Hshort.
    rewrite inject_Z_plus in Hshort.
    change (inject_Z 1) with 1%Q in Hshort.
    assert ((inject_Z (Z.of_nat n) + 1) * r
            == inject_Z (Z.of_nat n) * r + r)%Q as Hsucc by ring.
    rewrite Hsucc in Hshort.
    assert (0 <= (inject_Z (now2 - now) - 1) * r)%Q as Hstep.
    { apply Qmult_le_0_compat; [|lra].
      assert (inject_Z 1 <= inject_Z (now2 - now))%Q as H
        by (rewrite <- Zle_Qle; lia).
      change (inject_Z 1) with 1%Q in H. lra. }
    assert (inject_Z (now2 - now) / 1000 * r
            == inject_Z (now2 - now) * r * (1 # 1000))%Q as Hdiv by field.
    destruct (Q.min_spec (capacity l) (T + inject_Z (now2 - now) / 1000 * r))
      as [[_ ->]|[_ ->]]; [lra|].
    rewrite Hdiv.
    set (z := (inject_Z (now2 - now) * r)%Q) in *.
    set (y := (inject_Z (Z.of_nat n) * r)%Q) in *.
    assert (r <= z)%Q by (unfold z; lra).
    clearbody z y. lra.
Qed.

(** With timers that advance, a bucket that can hold a token and is
    refilled hands one out: given enough passes, the call returns. *)
Lemma waitForSlot_eventually now l :
  advancing wake → (1 <= capacity l)%Q → (0 < refillRate l)%Q →
  ∃ N, ∀ fuel, (N ≤ fuel)%nat → ∃ r, waitForSlot wake fuel now l = Some r.
Proof.
  intros Hwake Hcap Hrate.
  set (q := ((1 - refilled now l) * 1000 / refillRate l)%Q).
  set (n := Z.to_nat (Qceiling q)).
  destruct (waitForSlot_within n now l Hwake Hcap Hrate) as [r Hr].
  { assert (q <= inject_Z (Z.of_nat n))%Q as Hq.
    { eapply Qle_trans; [apply Qle_ceiling|]. rewrite <- Zle_Qle.
      unfold n. lia. }
    assert ((1 - refilled now l) * 1000 == q * refillRate l)%Q as ->.
    { unfold q. field. intros Hr0. rewrite Hr0 in Hrate.
      by apply Qlt_irrefl in Hrate. }
    apply Qmult_le_compat_r; [exact Hq|lra]. }
  exists (S n). intros fuel Hfuel. exists r.
  by apply (waitForSlot_more_fuel (S n)).
Qed.

Lemma Qmin_Qmin_plus c u y :
  (0 <= y)%Q → (Qmin c (Qmin c u + y) == Qmin c (u + y))%Q.
Proof.
  intros Hy.
  destruct (Q.min_spec c u) as [[H1 E1]|[H1 E1]];
    destruct (Q.min_spec c (Qmin c u + y)) as [[H2 E2]|[H2 E2]];
    destruct (Q.min_spec c (u + y)) as [[H3 E3]|[H3 E3]];
    rewrite E2, E3; rewrite ?E1 in H2 |- *; lra.
Qed.

(** Two refills in a row add up to one: what the bucket holds at [t2] does
    not depend on a refill in between, at [t1]. *)
Lemma refilled_refillTokens t1 t2 l :
  t1 ≤ t2 → (0 <= refillRate l)%Q →
  (refilled t2 (refillTokens t1 l) == refilled t2 l)%Q.
Proof.
  intros Ht Hrate. unfold refilled.
  cbn [tokens capacity refillRate lastRefill refillTokens]. unfold refilled.
  set (r := refillRate l) in *. set (c := capacity l). set (u := tokens l).
  assert (0 <= inject_Z (t2 - t1) / 1000 * r)%Q as Hy.
  { apply Qmult_le_0_compat; [|exact Hrate].
    apply Qle_shift_div_l; [reflexivity|]. rewrite Qmult_0_l.
    replace 0%Q with (inject_Z 0) by done. rewrite <- Zle_Qle. lia. }
  rewrite (Qmin_Qmin_plus c _ _ Hy).
  assert (u + inject_Z (t1 - lastRefill l) / 1000 * r
          + inject_Z (t2 - t1) / 1000 * r
          == u + inject_Z (t2 - lastRefill l) / 1000 * r)%Q as Hsum.
  { unfold Z.sub. rewrite !inject_Z_plus, !inject_Z_opp. field. }
  destruct (Q.min_spec c (u + inject_Z (t1 - lastRefill l) / 1000 * r
                          + inject_Z (t2 - t1) / 1000 * r)) as [[H1 E1]|[H1 E1]];
    destruct (Q.min_spec c (u + inject_Z (t2 - lastRefill l) / 1000 * r))
      as [[H2 E2]|[H2 E2]];
    rewrite E1, E2; rewrite ?Hsum in H1 |- *; lra.
Qed.

(** The account of a call that returns, however often it waited: at the
    instant of return the bucket, refilled from what it held before the
    call, had at least one token, and exactly one was taken. *)
Lemma waitForSlot_accounts fuel : ∀ now l now' l',
  (∀ t d, (0 <= d)%Q → t ≤ wake t d) → (0 <= refillRate l)%Q →
  waitForSlot wake fuel now l = Some (now', l') →
  now ≤ now'
  ∧ (1 <= refilled now' l)%Q
  ∧ (tokens l' == refilled now' l - 1)%Q
  ∧ capacity l' = capacity l ∧ refillRate l' = refillRate l
  ∧ lastRefill l' = now'.
Proof.
  induction fuel as [|fuel IH]; intros now l now' l' Hclock Hrate; [done|].
  cbn [waitForSlot].
  destruct (Qle_bool 1 (tokens (refillTokens now l))) eqn:Hle.
  - intros [= <- <-]. apply Qle_bool_iff in Hle.
    split; [lia|]. split; [exact Hle|]. split; [reflexivity|done].
  - intros Hrun.
    assert (¬ (1 <= refilled now l)%Q) as Hshort.
    { intros H1. apply Qle_bool_iff in H1.
      cbn [tokens refillTokens] in Hle. congruence. }
    assert (now ≤ wake now (waitTime (refillTokens now l))) as Hlater.
    { apply Hclock. unfold waitTime. cbn [tokens refillRate refillTokens].
      apply Qmult_le_0_compat; [|done].
      apply Qmult_le_0_compat; [lra|by apply Qinv_le_0_compat]. }
    destruct (IH _ (refillTokens now l) _ _ Hclock Hrate Hrun)
      as (Ht & H1 & Htok & Hcap & Hr & Hlast).
    assert (refilled now' (refillTokens now l) == refilled now' l)%Q as Heq.
    { apply refilled_refillTokens; [lia|exact Hrate]. }
    split; [lia|]. split; [by rewrite <- Heq|].
    split; [by rewrite Htok, Heq|]. done.
Qed.

Lemma reachable_invariant rpm l :
  reachable wake rpm l →
  capacity l = rpm ∧ refillRate l = (rpm / 60)%Q ∧ (tokens l <= capacity l)%Q.
Proof.
  induction 1 as [now|now l _ (Hc & Hr & Ht)|fuel now l now' l' _ (Hc & Hr & Ht) Hw].
  - split; [reflexivity|]. split; [reflexivity|]. apply Qle_refl.
  - cbn [capacity refillRate tokens refillTokens].
    split; [exact Hc|]. split; [exact Hr|]. apply refilled_le_capacity.
  - destruct (waitForSlot_returned _ _ _ _ _ Hw) as (l0 & Hc0 & Hr0 & _ & ->).
    cbn [capacity refillRate tokens consume refillTokens].
    split; [congruence|]. split; [congruence|].
    pose proof (refilled_le_capacity now' l0). lra.
Qed.

(** C8: the bucket starts with [tokens = capacity]; a refill sets
    [tokens] to [min(capacity, tokens + elapsedSeconds * refillRate)];
    a call of [waitForSlot] that returns has, in its last pass, refilled
    first, found at least one token, and taken exactly one; in terms of
    the bucket [l] it was called on, and however often it waited: it
    returns no earlier than it was called, the refill of [l] up to the
    instant of return, [min(capacity, tokens + elapsedSeconds *
    refillRate)] with the time elapsed since the last refill of [l], is at
    least 1, and the bucket is left with that amount less exactly one
    token (the clock does not run backwards and the rate is not
    negative); so the token count of a bucket never exceeds its capacity.
    With timers that do not fire early and a limit of at least one request
    per minute, a call returns after at most two passes. *)
Theorem token_bucket rpm :
  (∀ now, tokens (new rpm now) = capacity (new rpm now))
  ∧ (∀ now l,
       tokens (refillTokens now l)
       = Qmin (capacity l)
           (tokens l + inject_Z (now - lastRefill l) / 1000 * refillRate l)%Q)
  ∧ (∀ fuel now l now' l',
       waitForSlot wake fuel now l = Some (now', l') →
       ∃ l0, capacity l0 = capacity l ∧ refillRate l0 = refillRate l
             ∧ (1 <= tokens (refillTokens now' l0))%Q
             ∧ l' = consume (refillTokens now' l0)
             ∧ tokens l' = (tokens (refillTokens now' l0) - 1)%Q)
  ∧ (∀ fuel now l now' l',
       (∀ t d, (0 <= d)%Q → t ≤ wake t d) → (0 <= refillRate l)%Q →
       waitForSlot wake fuel now l = Some (now', l') →
       now ≤ now'
       ∧ (1 <= Qmin (capacity l)
                 (tokens l
                  + inject_Z (now' - lastRefill l) / 1000 * refillRate l))%Q
       ∧ (tokens l'
          == Qmin (capacity l)
               (tokens l
                + inject_Z (now' - lastRefill l) / 1000 * refillRate l)
             - 1)%Q
       ∧ capacity l' = capacity l ∧ refillRate l' = refillRate l
       ∧ lastRefill l' = now')
  ∧ (∀ l, reachable wake rpm l → (tokens l <= capacity l)%Q)
  ∧ (punctual wake → (1 <= rpm)%Q →
     ∀ now l, reachable wake rpm l →
              ∃ now' l', waitForSlot wake 2 now l = Some (now', l')).
Proof.
  split; [reflexivity|]. split; [reflexivity|]. split; [|split; [|split]].
  - intros fuel now l now' l' Hw.
    destruct (waitForSlot_returned _ _ _ _ _ Hw) as (l0 & Hc & Hr & H1 & ->).
    exists l0. repeat split; done.
  - intros fuel now l now' l'. apply waitForSlot_accounts.
  - intros l Hl. by apply reachable_invariant in Hl as (_ & _ & Ht).
  - intros Hwake Hrpm now l Hl.
    apply reachable_invariant in Hl as (Hc & Hr & _).
    apply waitForSlot_returns; [exact Hwake|by rewrite Hc|].
    rewrite Hr. apply Qlt_shift_div_l; lra.
Qed.

End Clock.

Lemma ceil_wake_forward t d : (0 <= d)%Q → t ≤ ceil_wake t d.
Proof.
  intros Hd. pose proof (ceil_wake_punctual t d) as H.
  rewrite Zle_Qle. lra.
Qed.

Lemma token_bucket_witness :
  (∀ l, reachable ceil_wake 60 l → (tokens l <= capacity l)%Q)
  ∧ (∃ now' l', waitForSlot ceil_wake 2 1000 (new 60 0) = Some (now', l'))
  ∧ ∃ l',
      waitForSlot ceil_wake 2 1000 MoreExamples.empty_bucket = Some (2000, l')
      ∧ (tokens l' == Qmin 60 (0 + inject_Z (2000 - 1000) / 1000 * 1) - 1)%Q.
Proof.
  split; [|split].
  - apply (token_bucket ceil_wake 60).
  - apply (token_bucket ceil_wake 60); [apply ceil_wake_punctual|discriminate|].
    apply reach_new.
  - eexists. split; [vm_compute; reflexivity|].
    destruct (token_bucket ceil_wake 60) as (_ & _ & _ & Haccount & _).
    match goal with |- (tokens ?l' == _)%Q =>
      destruct (Haccount 2%nat 1000 MoreExamples.empty_bucket 2000 l'
                  ceil_wake_forward)
        as (_ & _ & Htokens & _) end;
      [discriminate|vm_compute; reflexivity|exact Htokens].
Defined.

End RateLimiterFacts.

(** ** The worker and the vendor call *)

Module WorkerFacts.

Import Sys Worker.

Lemma returns_ret {A} (a : A) w (post : A → World → Prop) :
  post a w → returns (mret a) w post.
Proof. intros H. by exists a, w. Qed.

Lemma returns_bind {A B} (m : M A) (k : A → M B) w post :
  returns m w (λ a w1, returns (k a) w1 post) → returns (m ≫= k) w post.
Proof.
  intros (a & w1 & Hm & b & w' & Hk & Hpost). exists b, w'.
  split; [|exact Hpost]. rewrite ServerFacts.bind_eq, Hm. exact Hk.
Qed.

Lemma returns_weaken {A} (m : M A) w (post post' : A → World → Prop) :
  returns m w post → (∀ a w', post a w' → post' a w') → returns m w post'.
Proof. intros (a & w' & Hm & Hpost) H. exists a, w'. auto. Qed.

(** Sequencing: [m] first, then [k] from wherever [m] ends. *)
Lemma returns_seq {A B} (m : M A) (k : A → M B) w mid post :
  returns m w mid → (∀ a w1, mid a w1 → returns (k a) w1 post) →
  returns (m ≫= k) w post.
Proof.
  intros Hm Hk. apply returns_bind. eapply returns_weaken; [exact Hm|].
  exact Hk.
Qed.

Lemma returns_try_catch {A} (m : M A) handler w post :
  returns m w post → returns (try_catch m handler) w post.
Proof.
  intros (a & w' & Hm & Hpost). exists a, w'. split; [|exact Hpost].
  unfold try_catch. by rewrite Hm.
Qed.

Lemma returns_updateOne id set w :
  returns (Worker.updateOne id set) w (λ _ w', same_traffic w w').
Proof.
  unfold returns, Worker.updateOne.
  destruct (JobStore.updateOne id (set (now w)) (jobs w)) as [n s].
  by exists n, (set_jobs s w).
Qed.

Section Worker.

Variable env : Env.
Variable config : Vendor.Configuration.

Lemma callVendor_sends fuel vendorName payload requestId w :
  RateLimiter.punctual (wake env) →
  vendorName = "syncVendor" ∨ vendorName = "asyncVendor" →
  bucket_ready w vendorName → (2 ≤ fuel)%nat →
  returns (Vendor.callVendor env config fuel vendorName payload requestId) w
    (λ _ w', ∃ vendor,
       Vendor.vendors config !! vendorName = Some vendor
       ∧ sent_to (Vendor.url vendor) (Vendor.timeout vendor) requestId w w').
Proof.
  intros Hwake Hname (l & Hl & Hcap & Hrate) Hfuel.
  destruct (RateLimiterFacts.waitForSlot_returns (wake env) (now w) l Hwake Hcap Hrate)
    as (t & l' & Hwait).
  apply (RateLimiterFacts.waitForSlot_more_fuel _ _ fuel) in Hwait; [|exact Hfuel].
  assert (∃ vendor, Vendor.vendors config !! vendorName = Some vendor) as [vendor Hv].
  { destruct Hname as [-> | ->]; by eexists. }
  unfold Vendor.callVendor. rewrite Hv.
  unfold returns. rewrite ServerFacts.bind_eq. cbn [get]. rewrite Hl.
  rewrite ServerFacts.bind_eq. unfold Vendor.waitForSlot at 1. rewrite Hwait.
  rewrite ServerFacts.bind_eq. cbn [get]. rewrite ServerFacts.bind_eq.
  unfold Vendor.axios_post at 1.
  match goal with |- context [network env ?p] => set (p0 := p) end.
  destruct (reply_result (network env p0)); eexists _, _; (split; [reflexivity|]);
    exists vendor; (split; [done|]); exists p0; done.
Qed.

(** The vendor that [selectVendor] names for a payload with these
    fields. *)
Lemma returns_selectVendor fields w :
  returns (selectVendor (Js.JObj fields)) w
    (λ vendor w',
       w' = w
       ∧ vendor = if Js.is_string (Js.get_prop "type" fields) "sync"
                     || negb (Js.truthy (Js.get_prop "type" fields))
                  then "syncVendor" else "asyncVendor").
Proof.
  unfold selectVendor. destruct (_ || _); apply returns_ret; auto.
Qed.

Lemma returns_updateJobStatus id st w :
  returns (updateJobStatus id st) w (λ _ w', same_traffic w w').
Proof.
  unfold updateJobStatus. eapply returns_seq; [apply returns_updateOne|].
  intros u w1 H. by apply returns_ret.
Qed.

Lemma returns_assignVendor id vendor w :
  returns (assignVendor id vendor) w (λ _ w', same_traffic w w').
Proof.
  unfold assignVendor. eapply returns_seq; [apply returns_updateOne|].
  intros u w1 H. by apply returns_ret.
Qed.

Lemma returns_updateJobResult id st res err w :
  returns (updateJobResult id st res err) w (λ _ w', same_traffic w w').
Proof.
  unfold updateJobResult. eapply returns_seq; [apply returns_updateOne|].
  intros u w1 H. by apply returns_ret.
Qed.

Lemma processJob_sends fuel message fields w :
  RateLimiter.punctual (wake env) →
  JSON_parse env (msg_payload message) = Some (Js.JObj fields) →
  bucket_ready w "syncVendor" → bucket_ready w "asyncVendor" →
  (2 ≤ fuel)%nat →
  returns (processJob env config fuel message) w
    (λ _ w', ∃ vendor,
       Vendor.vendors config
         !! (if Js.is_string (Js.get_prop "type" fields) "sync"
                || negb (Js.truthy (Js.get_prop "type" fields))
             then "syncVendor" else "asyncVendor")
       = Some vendor
       ∧ sent_to (Vendor.url vendor) (Vendor.timeout vendor)
           (msg_requestId message) w w').
Proof.
  intros Hwake Hparse Hsync Hasync Hfuel. unfold processJob.
  apply returns_try_catch.
  eapply returns_seq; [apply returns_updateJobStatus|].
  intros u1 w1 (Hp1 & Ha1 & Hr1). unfold parse. rewrite Hparse.
  eapply (returns_seq _ _ _ (λ v w', v = Js.JObj fields ∧ w' = w1));
    [by apply returns_ret|]. intros v w1' [-> ->].
  eapply returns_seq; [apply returns_selectVendor|].
  intros vendorName w1' [-> Hname].
  assert (vendorName = "syncVendor" ∨ vendorName = "asyncVendor") as Hknown.
  { rewrite Hname. destruct (_ || _); auto. }
  eapply returns_seq; [apply returns_assignVendor|].
  intros u2 w2 (Hp2 & Ha2 & Hr2).
  eapply returns_seq.
  { apply callVendor_sends; [exact Hwake|exact Hknown| |exact Hfuel].
    unfold bucket_ready. rewrite Hr2, Hr1.
    destruct Hknown as [-> | ->]; assumption. }
  intros response w3 (vendor & Hv & p & Hp3 & Hurl & Htimeout & Hh & Ha3).
  cbv beta. rewrite Hname in Hv.
  assert (sent_to (Vendor.url vendor) (Vendor.timeout vendor)
            (msg_requestId message) w w3) as Hsent.
  { exists p. rewrite Hp3, Hp2, Hp1, Ha3, Ha2, Ha1. done. }
  destruct (Vendor.resp_isAsync response);
    [apply returns_ret; by exists vendor|].
  eapply returns_weaken; [apply returns_updateJobResult|].
  intros u4 w4 (Hp4 & Ha4 & _). exists vendor. split; [exact Hv|].
  destruct Hsent as (p' & ? & ? & ? & ? & ?).
  exists p'. rewrite Hp4, Ha4. done.
Qed.

(** C2, amended: the worker does not read the status of the job.  For
    every delivered message whose payload parses to a JSON object, and
    whatever the stored job is (complete and failed included), one turn of
    the loop sends one request to the vendor that [selectVendor] names for
    the payload (the synchronous vendor when [type] is "sync" or falsy,
    the asynchronous vendor otherwise), to the URL of that vendor and with
    its timeout, carrying the [requestId] of the message, and then
    acknowledges the message.  The timers do not fire early and the two
    buckets can hold a token; the call may wait for its token. *)
Theorem worker_dispatches_whatever_the_status fuel message fields w :
  RateLimiter.punctual (wake env) →
  JSON_parse env (msg_payload message) = Some (Js.JObj fields) →
  bucket_ready w "syncVendor" → bucket_ready w "asyncVendor" →
  (2 ≤ fuel)%nat →
  ∃ w' p vendor,
    turn env config fuel [message] w = (Return tt, w')
    ∧ Vendor.vendors config
        !! (if Js.is_string (Js.get_prop "type" fields) "sync"
               || negb (Js.truthy (Js.get_prop "type" fields))
            then "syncVendor" else "asyncVendor")
      = Some vendor
    ∧ posts w' = posts w ++ [p]
    ∧ post_url p = Vendor.url vendor
    ∧ post_timeout p = Vendor.timeout vendor
    ∧ post_headers p = [("Content-Type", "application/json");
                        ("X-Request-ID", msg_requestId message)]
    ∧ acked w' = acked w ++ [id message].
Proof.
  intros Hwake Hparse Hsync Hasync Hfuel.
  destruct (processJob_sends fuel message fields w Hwake Hparse Hsync Hasync
              Hfuel)
    as ([] & w1 & Hrun & vendor & Hv & p & Hp & Hurl & Htimeout & Hh & Ha).
  exists (set_acked (acked w1 ++ [id message]) w1), p, vendor.
  split; [|split; [exact Hv|split; [exact Hp|split; [exact Hurl|
    split; [exact Htimeout|split; [exact Hh|by rewrite <- Ha]]]]]].
  unfold turn, try_catch. cbn [for_each].
  change (bind ?m ?k) with (m ≫= k).
  rewrite !ServerFacts.bind_eq, Hrun. reflexivity.
Qed.

End Worker.

Lemma examples_bucket_ready t s name :
  name = "syncVendor" ∨ name = "asyncVendor" →
  bucket_ready (Examples.world t s) name.
Proof.
  intros [-> | ->]; eexists; (split; [vm_compute; reflexivity|]);
    split; vm_compute; [discriminate|reflexivity|discriminate|reflexivity].
Qed.

Lemma worker_dispatches_whatever_the_status_witness :
  ∃ w' p,
    turn Examples.env Examples.config 2 [Examples.message]
      (Examples.world 5000 [Examples.complete_doc]) = (Return tt, w')
    ∧ posts w' = [p] ∧ acked w' = [id Examples.message]
    ∧ post_url p = "http://localhost:3001/api/data".
Proof.
  destruct (worker_dispatches_whatever_the_status Examples.env Examples.config
              2 Examples.message [("type", Js.JStr "sync")]
              (Examples.world 5000 [Examples.complete_doc]))
    as (w' & p & vendor & Hrun & Hv & Hp & Hurl & _ & _ & Ha).
  - apply RateLimiterFacts.ceil_wake_punctual.
  - reflexivity.
  - apply examples_bucket_ready. by left.
  - apply examples_bucket_ready. by right.
  - lia.
  - exists w', p. split; [exact Hrun|]. split; [exact Hp|].
    split; [exact Ha|]. rewrite Hurl. by injection Hv as <-.
Defined.

(** C2, as stated, fails: the job is already complete when its message
    is delivered, and the turn of the worker sends a request to the
    vendor all the same. *)
Lemma worker_calls_vendor_for_complete_job :
  ¬ (∀ env config fuel message w d,
       JobStore.findOne (msg_requestId message) (jobs w) = Some d →
       JobStore.status d = JobStore.complete
       ∨ JobStore.status d = JobStore.failed →
       posts (snd (turn env config fuel [message] w)) = posts w).
Proof.
  intros H.
  specialize (H Examples.env Examples.config 2%nat Examples.message
                (Examples.world 5000 [Examples.complete_doc])
                Examples.complete_doc eq_refl (or_introl eq_refl)).
  vm_compute in H. discriminate H.
Qed.

(** The worker on a vendor failure: [callVendor] returns a response with
    [status: "error"] and [data: null], [processJob] tests [isAsync] only,
    and the job of the synchronous vendor is stored as [complete] with no
    result and no error, which [pre('save')] refuses. *)
Lemma worker_stores_vendor_failure_as_complete :
  let w' := snd (turn Examples.down_env Examples.config 2 [Examples.message]
                   (Examples.world 5000 [Examples.pending_doc])) in
  let stored := Examples.doc Examples.uuid JobStore.complete Js.JNull None
                  (Some "syncVendor") 5020 in
  jobs w' = [stored]
  ∧ JobStore.pre_save stored
    = Some "Complete jobs must have either result or error".
Proof. split; vm_compute; reflexivity. Qed.

(** C3 at a failing input: the breaker of the vendor API is open, its
    last failure 690 ms old, so that [execute] rejects a call without
    running it; [callVendor], which takes no breaker, sends the request to
    the vendor at that same instant. *)
Theorem callVendor_ignores_open_breaker :
  let b := Examples.open_breaker in
  let w := Examples.world 1000 [] in
  CircuitBreaker.state b = CircuitBreaker.OPEN
  ∧ CircuitBreaker.execute CircuitBreaker.VENDOR_API Examples.counting_op
      1000 b 0%nat = (0%nat, b, inl CircuitBreaker.CircuitOpen)
  ∧ posts w = []
  ∧ length (posts (snd (Vendor.callVendor Examples.env Examples.config 2
                          "syncVendor" (Js.JObj []) Examples.uuid w))) = 1%nat.
Proof. repeat split; vm_compute; reflexivity. Qed.

End WorkerFacts.

(** ** Reading and writing the properties of an object *)

Module JsFacts.

Import SysSpec.

Lemma get_prop_absent k (fields : list (string * Js.value)) :
  k ∉ fst <$> fields → Js.get_prop k fields = Js.JUndefined.
Proof.
  induction fields as [|[k' v] fields IH]; [done|].
  rewrite fmap_cons, not_elem_of_cons. cbn [fst Js.get_prop]. intros [Hne Hin].
  rewrite (IH Hin). by destruct (String.eqb_spec k k').
Qed.

Lemma get_prop_set_prop_ne k k' v (fields : list (string * Js.value)) :
  k ≠ k' → Js.get_prop k' (Js.set_prop k v fields) = Js.get_prop k' fields.
Proof.
  intros Hne. induction fields as [|[k0 v0] fields IH]; cbn.
  - by destruct (String.eqb_spec k' k).
  - destruct (String.eqb_spec k k0) as [->|Hne0]; cbn.
    + destruct (String.eqb_spec k' k0); [congruence|done].
    + by rewrite IH.
Qed.

Lemma set_prop_keys k v (fields : list (string * Js.value)) x :
  x ∈ fst <$> Js.set_prop k v fields ↔ x = k ∨ x ∈ fst <$> fields.
Proof.
  induction fields as [|[k0 v0] fields IH]; cbn [Js.set_prop].
  - rewrite fmap_cons, fmap_nil, list_elem_of_singleton, elem_of_nil. cbn.
    tauto.
  - destruct (String.eqb_spec k k0) as [->|Hne0];
      rewrite !fmap_cons, !elem_of_cons; cbn [fst]; [tauto|]. rewrite IH. tauto.
Qed.

Lemma set_prop_distinct k v fields :
  distinct_keys fields → distinct_keys (Js.set_prop k v fields).
Proof.
  unfold distinct_keys.
  induction fields as [|[k0 v0] fields IH]; cbn [Js.set_prop].
  - intros _. apply NoDup_singleton.
  - rewrite fmap_cons, NoDup_cons. cbn [fst]. intros [Hk0 Hnd].
    destruct (String.eqb_spec k k0) as [->|Hne0]; rewrite fmap_cons, NoDup_cons.
    + done.
    + split; [|by apply IH]. cbn [fst]. rewrite set_prop_keys.
      intros [?|?]; congruence.
Qed.

Lemma get_prop_set_prop_eq k v fields :
  distinct_keys fields → Js.get_prop k (Js.set_prop k v fields) = v.
Proof.
  unfold distinct_keys.
  induction fields as [|[k0 v0] fields IH]; cbn [Js.set_prop].
  - intros _. cbn. by rewrite String.eqb_refl.
  - rewrite fmap_cons, NoDup_cons. cbn [fst]. intros [Hk0 Hnd].
    destruct (String.eqb_spec k k0) as [->|Hne0]; cbn [Js.get_prop].
    + rewrite (get_prop_absent _ _ Hk0). by rewrite String.eqb_refl.
    + rewrite (IH Hnd). destruct (String.eqb_spec k k0); [congruence|].
      by destruct v.
Qed.

End JsFacts.

(** ** More on the repository *)

Module JobStoreMoreFacts.

Import JobStore JobQueries JobMethods.


Lemma findOne_None_ids id (s : Store) :
  findOne id s = None ↔ Js.trim id ∉ requestId <$> s.
Proof.
  rewrite JobStoreFacts.findOne_None_iff, list_elem_of_fmap. split.
  - intros H (d & Hid & Hd). by apply (H d); [apply list_elem_of_In|].
  - intros H d Hd Hid. apply H. exists d. by rewrite list_elem_of_In.
Qed.

(** What an accepted job looks like. *)
Lemma create_accepted job (s s' : Store) :
  create job s = inr s' →
  validate (new_JobModel job) = [] ∧ pre_save (new_JobModel job) = None
  ∧ findOne (job_requestId job) s = None
  ∧ s' = s ++ [inserted (new_JobModel job)].
Proof.
  unfold create. cbv zeta.
  destruct (validate (new_JobModel job)); [|done].
  destruct (pre_save (new_JobModel job)); [done|].
  destruct (first_with (requestId (new_JobModel job)) s) eqn:Hmiss; [done|].
  by intros [= <-].
Qed.



Lemma updateOne_ids id set (s : Store) :
  (∀ d, requestId (set d) = requestId d) →
  requestId <$> (updateOne id set s).2 = requestId <$> s.
Proof.
  intros Hset. unfold updateOne. generalize (cast_requestId id). intros key.
  induction s as [|x s IH]; [done|]. cbn [rewrite_first].
  destruct (String.eqb (requestId x) key).
  - cbn. by rewrite Hset.
  - destruct (rewrite_first key set s) as [n s'] eqn:Hu. cbn in *.
    by rewrite IH.
Qed.

(** X2: [create], [updateStatus] and [updateResult] keep the unique index:
    when no two stored documents share a [requestId] before a successful
    write, none do after it. *)
Theorem writes_keep_requestId_unique (s s' : Store) :
  NoDup (requestId <$> s) →
  (∃ job, create job s = inr s')
  ∨ (∃ now id st, updateStatus now id st s = inr s')
  ∨ (∃ now id st res err, updateResult now id st res err s = inr s') →
  NoDup (requestId <$> s').
Proof.
  intros Hnd [[job Hc]|[(now & id & st & Hu)|(now & id & st & res & err & Hu)]].
  - apply create_accepted in Hc as (_ & _ & Hmiss & ->).
    rewrite fmap_app. apply NoDup_app. split; [exact Hnd|]. split.
    + intros x Hx Hin. apply list_elem_of_singleton in Hin. subst x.
      by apply findOne_None_ids in Hmiss.
    + apply NoDup_singleton.
  - unfold updateStatus in Hu.
    match type of Hu with context [updateOne id ?f s] =>
      pose proof (updateOne_ids id f s (λ _, eq_refl)) as Hids;
      destruct (updateOne id f s) as [n s0] end.
    destruct (n =? 0)%nat; [done|]. injection Hu as <-. cbn in Hids.
    by rewrite Hids.
  - unfold updateResult in Hu.
    pose proof (updateOne_ids id (updateData now st res err) s (λ _, eq_refl))
      as Hids.
    destruct (updateOne id (updateData now st res err) s) as [n s0].
    destruct (n =? 0)%nat; [done|]. injection Hu as <-. cbn in Hids.
    by rewrite Hids.
Qed.

Lemma writes_keep_requestId_unique_witness :
  NoDup (requestId <$> [Examples.pending_doc; new_JobModel MoreExamples.uuid2_job]).
Proof.
  apply (writes_keep_requestId_unique [Examples.pending_doc]).
  - apply NoDup_singleton.
  - left. exists MoreExamples.uuid2_job. reflexivity.
Defined.



(** X4: [updateStatus] of a key that is not stored fails with the error
    [Failed to update job status: Job with requestId ... not found]; for a
    stored key it replaces the status and [updatedAt] of the document that
    [findById] finds, and nothing else in the collection. *)
Theorem updateStatus_frame now id st (s : Store) :
  (findOne id s = None →
   updateStatus now id st s = inl (FailedToUpdateStatus (not_found id)))
  ∧ (∀ d, findOne id s = Some d →
     ∃ pre post,
       s = pre ++ d :: post
       ∧ updateStatus now id st s
         = inr (pre ++ {| requestId := requestId d; status := st;
                          payload := payload d; result := result d;
                          error := error d; vendor := vendor d;
                          createdAt := createdAt d; updatedAt := now |}
                    :: post)).
Proof.
  split.
  - intros H. unfold updateStatus. by rewrite (JobStoreFacts.updateOne_miss _ _ _ H).
  - intros d H. unfold updateStatus.
    match goal with |- context [updateOne id ?f s] =>
      destruct (JobStoreFacts.updateOne_hit id f s d H)
        as (pre & post & Hs & _ & Hup) end.
    exists pre, post. by rewrite Hup.
Qed.

Lemma updateStatus_frame_witness :
  updateStatus 3000 Examples.uuid2 processing [Examples.pending_doc]
  = inl (FailedToUpdateStatus (not_found Examples.uuid2)).
Proof.
  apply (updateStatus_frame 3000 Examples.uuid2 processing [Examples.pending_doc]).
  reflexivity.
Defined.










(** X7: the instance methods go through [save].  When [markAsComplete]
    succeeds, the job is complete with the truthy result given and no
    error; when [markAsFailed] succeeds, the job is failed with the result
    [null] and a non-empty error of at most 1000 characters; when
    [markAsProcessing] succeeds, the job is processing for the trimmed
    vendor, with the result and the error it had.
    [markAsComplete] with a falsy result and [markAsFailed] with the empty
    string are refused: for a document whose [requestId] and payload pass
    their validators, by the [pre('save')] hook, with its message. *)
Theorem instance_methods_keep_the_rules now (d d' : JobDoc) :
  (∀ res, markAsComplete now res d = inr d' →
     status d' = complete ∧ error d' = None ∧ result d' = res
     ∧ Js.truthy res = true)
  ∧ (∀ err, markAsFailed now err d = inr d' →
       status d' = failed ∧ result d' = Js.JNull ∧ error d' = Some err
       ∧ err ≠ EmptyString ∧ (String.length err ≤ 1000)%nat)
  ∧ (∀ res, Js.truthy res = false → ∃ e, markAsComplete now res d = inl e)
  ∧ (∃ e, markAsFailed now EmptyString d = inl e)
  ∧ (validate_requestId d = [] → validate_payload d = [] →
     (∀ res, Js.truthy res = false →
        markAsComplete now res d
        = inl (SaveRefused "Complete jobs must have either result or error"))
     ∧ markAsFailed now EmptyString d
       = inl (SaveRefused "Failed jobs must have an error message"))
  ∧ (∀ v, markAsProcessing now v d = inr d' →
       status d' = processing ∧ vendor d' = Some (Js.trim v)
       ∧ result d' = result d ∧ error d' = error d).
Proof.
  assert (∀ x, save x = inr d' → x = d' ∧ pre_save x = None
                                 ∧ validate_error x = []) as Hsave.
  { intros x. unfold save. destruct (validate x) eqn:Hv; [|done].
    destruct (pre_save x); [done|]. intros [= <-]. split; [done|].
    split; [done|]. unfold validate in Hv.
    apply app_eq_nil in Hv as [_ Hv]. by apply app_eq_nil in Hv as [_ Hv]. }
  assert (∀ x msg, pre_save x = Some msg → ∃ e, save x = inl e) as Hrefused.
  { intros x msg Hx. unfold save. rewrite Hx.
    destruct (validate x); by eexists. }
  assert (∀ res, Js.truthy res = false →
            pre_save {| requestId := requestId d; status := complete;
                        payload := payload d;
                        result := match res with
                                  | Js.JUndefined => Js.JNull
                                  | r => r
                                  end;
                        error := None; vendor := vendor d;
                        createdAt := createdAt d; updatedAt := now |}
            = Some "Complete jobs must have either result or error")
    as Hcomplete.
  { intros res Hres. unfold pre_save. cbn [status result error Status_eqb].
    assert (Js.truthy match res with Js.JUndefined => Js.JNull | r => r end
            = false) as -> by by destruct res.
    reflexivity. }
  split; [|split; [|split; [|split; [|split]]]].
  - intros res Hrun. apply Hsave in Hrun as (<- & Hpre & _).
    cbn [status error result]. unfold pre_save in Hpre.
    cbn [status result error Status_eqb Js.truthy_str] in Hpre.
    destruct res as [| |b|n|str|items|fields]; cbn in Hpre |- *; try done.
    + by destruct b.
    + by destruct (n =? 0).
    + by destruct (String.eqb str EmptyString).
  - intros err Hrun. apply Hsave in Hrun as (<- & Hpre & Hv).
    cbn [status error result]. unfold pre_save in Hpre.
    unfold validate_error in Hv. cbn [error] in Hv.
    cbn [status error Status_eqb Js.truthy_str andb] in Hpre.
    destruct (String.eqb_spec err EmptyString); [discriminate Hpre|].
    destruct (Nat.ltb_spec 1000 (String.length err)); [discriminate Hv|].
    repeat split; [done|lia].
  - intros res Hres. by eapply Hrefused, Hcomplete.
  - by eapply Hrefused.
  - intros Hid Hpayload. split.
    + intros res Hres. unfold markAsComplete, save.
      rewrite (Hcomplete res Hres). unfold validate.
      change (validate_requestId _) with (validate_requestId d) at 1.
      change (validate_payload _) with (validate_payload d) at 1.
      by rewrite Hid, Hpayload.
    + unfold markAsFailed, save. unfold validate.
      change (validate_requestId _) with (validate_requestId d) at 1.
      change (validate_payload _) with (validate_payload d) at 1.
      by rewrite Hid, Hpayload.
  - intros v Hrun. by apply Hsave in Hrun as (<- & _ & _).
Qed.

Lemma instance_methods_keep_the_rules_witness :
  ∃ d', markAsFailed 3000 "vendor down" Examples.waiting_doc = inr d'
        ∧ status d' = failed ∧ result d' = Js.JNull.
Proof.
  eexists. split; [reflexivity|].
  match goal with |- status ?d' = _ ∧ _ =>
    destruct (instance_methods_keep_the_rules 3000 Examples.waiting_doc d')
      as (_ & Hfailed & _) end.
  destruct (Hfailed "vendor down" eq_refl) as (Hst & Hres & _).
  split; [exact Hst|exact Hres].
Defined.

End JobStoreMoreFacts.

(** ** More on the circuit breaker *)

Module CircuitBreakerMoreFacts.

Import CircuitBreaker CircuitBreakerManager.

Section Facts.

Variable options : CircuitBreakerOptions.

(** X8: an open breaker whose recovery timeout has passed since the last
    failure lets the next call through, and when that call succeeds within
    the latency threshold the breaker closes, with its counters of failures
    and successes and its latencies reset; the call counts in
    [totalRequests]. *)
Theorem probe_success_closes {W T E} (op : W → W * Settled T E)
    now b w t w' d v :
  state b = OPEN → lastFailureTime b = Some t →
  recoveryTimeout options ≤ now - t →
  op w = (w', mkSettled d (inr v)) → d < latencyThreshold options →
  ∃ b', execute options op now b w = (w', b', inr v)
        ∧ state b' = CLOSED ∧ failures b' = 0 ∧ successes b' = 0
        ∧ latencies b' = [] ∧ lastFailureTime b' = Some t
        ∧ totalRequests b' = totalRequests b + 1.
Proof.
  intros Hst Hlast Ht Hop Hd.
  unfold execute, gate, shouldAttemptReset. rewrite Hst, Hlast. cbn [state_eqb].
  destruct (Z.leb_spec (recoveryTimeout options) (now - t)); [|lia].
  unfold run. rewrite Hop. unfold race. cbn [duration outcome].
  destruct (Z.leb_spec d (latencyThreshold options)); [|lia].
  eexists. split; [reflexivity|]. unfold onSuccess. cbn. done.
Qed.



Lemma length_keepRecentLatencies b :
  (length (latencies b) ≤ 101)%nat →
  (length (latencies (keepRecentLatencies b)) ≤ 100)%nat.
Proof.
  intros H. cbn [latencies keepRecentLatencies].
  destruct (Nat.ltb_spec 100 (length (latencies b))); [|lia].
  rewrite length_drop. lia.
Qed.

Lemma counters_ok_run {W T E} (op : W → W * Settled T E) now b w :
  counters_ok b → counters_ok (snd (fst (run options op now b w))).
Proof.
  intros (Hf & Hs & Ht & Hl). unfold run. destruct (op w) as [w1 r].
  destruct (race options r) as [lat [e|v]]; cbn [fst snd].
  - unfold onFailure.
    match goal with |- context [keepRecentLatencies ?x] =>
      pose proof (length_keepRecentLatencies x) as Hk end.
    cbn [latencies push_latency begin_request cleanupOldRequests] in Hk.
    rewrite length_app in Hk. cbn [length] in Hk.
    destruct (shouldOpen _ _ _); unfold counters_ok; cbn -[Z.add length];
      (repeat split; [lia|lia|lia|apply Hk; lia]).
  - unfold onSuccess.
    match goal with |- context [keepRecentLatencies ?x] =>
      pose proof (length_keepRecentLatencies x) as Hk end.
    cbn [latencies push_latency begin_request cleanupOldRequests] in Hk.
    rewrite length_app in Hk. cbn [length] in Hk.
    cbn [state begin_request cleanupOldRequests keepRecentLatencies push_latency].
    destruct (state_eqb (state b) HALF_OPEN); unfold counters_ok;
      cbn -[Z.add length];
      (repeat split; first [lia | cbn; lia | apply Hk; lia]).
Qed.

Lemma counters_ok_operated b : operated options b → counters_ok b.
Proof.
  induction 1 as [now|W T E op now b w _ IH].
  - unfold counters_ok. cbn. lia.
  - unfold execute, gate.
    destruct (state_eqb (state b) OPEN); [|by apply counters_ok_run].
    destruct (shouldAttemptReset options now b); [|exact IH].
    by apply counters_ok_run.
Qed.

(** X11: for a breaker that was only ever driven through [execute], the
    counters of failures and of successes are not negative, together they
    do not exceed [totalRequests], at most 100 latencies are kept, and the
    error rate that [getStats] reports lies between 0 and 1. *)
Theorem operated_breaker_statistics b :
  operated options b →
  0 ≤ failures b ∧ 0 ≤ successes b
  ∧ failures b + successes b ≤ totalRequests b
  ∧ (length (latencies b) ≤ 100)%nat
  ∧ (0 <= errorRate (getStats b))%Q ∧ (errorRate (getStats b) <= 1)%Q.
Proof.
  intros Hop. destruct (counters_ok_operated b Hop) as (Hf & Hs & Ht & Hl).
  repeat split; try done; cbn [errorRate getStats]; unfold getErrorRate.
  - destruct (Z.ltb_spec 0 (failures b + successes b)); [|done].
    apply Qle_shift_div_l.
    + replace 0%Q with (inject_Z 0) by done. by rewrite <- Zlt_Qlt.
    + rewrite Qmult_0_l. replace 0%Q with (inject_Z 0) by done.
      by rewrite <- Zle_Qle.
  - destruct (Z.ltb_spec 0 (failures b + successes b)); [|done].
    apply Qle_shift_div_r.
    + replace 0%Q with (inject_Z 0) by done. by rewrite <- Zlt_Qlt.
    + rewrite Qmult_1_l, <- Zle_Qle. lia.
Qed.

(** X12: the manual controls.  [reset] puts a breaker back in the state of
    a new one; after [forceClose] the next call is run; after [forceOpen]
    the next call is rejected while the last recorded failure is younger
    than the recovery timeout, but it is run, as the probe of a half-open
    breaker, when the breaker never recorded a failure. *)
Theorem manual_controls {W T E} (op : W → W * Settled T E) now now' b w :
  reset now b = CircuitBreaker.new now
  ∧ execute options op now' (forceClose now b) w
    = run options op now' (forceClose now b) w
  ∧ (lastFailureTime b = None →
     execute options op now' (forceOpen now b) w
     = run options op now' (setState now' HALF_OPEN (forceOpen now b)) w)
  ∧ (∀ t, lastFailureTime b = Some t → now' - t < recoveryTimeout options →
     execute options op now' (forceOpen now b) w
     = (w, forceOpen now b, inl CircuitOpen)).
Proof.
  split; [reflexivity|]. split; [reflexivity|]. split.
  - intros Hnone. unfold execute, gate, shouldAttemptReset. cbn. by rewrite Hnone.
  - intros t Hlast Ht. unfold execute, gate, shouldAttemptReset. cbn.
    rewrite Hlast. by destruct (Z.leb_spec (recoveryTimeout options) (now' - t)); [lia|].
Qed.

End Facts.

Lemma probe_success_closes_witness :
  ∃ b', execute VENDOR_API Examples.counting_op 30310 Examples.open_breaker 0%nat
        = (1%nat, b', inr tt)
        ∧ state b' = CLOSED.
Proof.
  destruct (probe_success_closes VENDOR_API Examples.counting_op 30310
              Examples.open_breaker 0%nat 310 1%nat 10 tt)
    as (b' & Hrun & Hst & _).
  - reflexivity.
  - reflexivity.
  - simpl. lia.
  - reflexivity.
  - simpl. lia.
  - exists b'. split; [exact Hrun|exact Hst].
Defined.



Lemma operated_breaker_statistics_witness :
  (errorRate (getStats Examples.open_breaker) <= 1)%Q.
Proof.
  apply (operated_breaker_statistics VENDOR_API Examples.open_breaker).
  unfold Examples.open_breaker, Examples.two_failures, Examples.after_failure.
  repeat apply operated_execute. apply operated_new.
Defined.

Lemma map_get_set k v (m : CircuitBreakerManager.t) k' :
  map_get k' (map_set k v m)
  = if String.eqb k k' then Some v else map_get k' m.
Proof.
  induction m as [|[k0 v0] m IH]; cbn [map_set map_get].
  - done.
  - destruct (String.eqb_spec k0 k) as [->|Hne]; cbn [map_get].
    + by destruct (String.eqb k k').
    + rewrite IH. destruct (String.eqb_spec k0 k') as [->|Hne']; [|done].
      by destruct (String.eqb_spec k k').
Qed.

Lemma map_set_keys k v (m : CircuitBreakerManager.t) :
  NoDup (fst <$> m) → NoDup (fst <$> map_set k v m).
Proof.
  intros Hnd.
  assert (∀ x, x ∈ fst <$> map_set k v m → x = k ∨ x ∈ fst <$> m) as Hin.
  { induction m as [|[k0 v0] m IH]; cbn [map_set]; intros x.
    - rewrite fmap_cons, elem_of_cons. intros [->|H]; [by left|by right].
    - destruct (String.eqb_spec k0 k) as [->|Hne].
      + rewrite !fmap_cons, !elem_of_cons. cbn. tauto.
      + rewrite !fmap_cons, !elem_of_cons. cbn. intros [->|H]; [tauto|].
        apply NoDup_cons in Hnd as [_ Hnd]. destruct (IH Hnd x H); tauto. }
  clear Hin.
  induction m as [|[k0 v0] m IH]; cbn [map_set].
  - apply NoDup_singleton.
  - rewrite fmap_cons in Hnd. apply NoDup_cons in Hnd as [Hk0 Hnd].
    destruct (String.eqb_spec k0 k) as [->|Hne].
    + rewrite fmap_cons. by apply NoDup_cons.
    + rewrite fmap_cons. apply NoDup_cons. split; [|by apply IH].
      cbn. intros Hin. apply Hk0. clear IH Hk0 Hnd.
      induction m as [|[k1 v1] m IH]; cbn [map_set] in Hin.
      * apply list_elem_of_singleton in Hin. cbn in Hin. congruence.
      * destruct (String.eqb_spec k1 k) as [->|Hne1].
        -- rewrite fmap_cons, elem_of_cons in Hin. cbn in Hin.
           destruct Hin as [?|Hin]; [congruence|].
           rewrite fmap_cons. apply elem_of_cons. by right.
        -- rewrite fmap_cons, elem_of_cons in Hin. cbn in Hin.
           rewrite fmap_cons. apply elem_of_cons.
           destruct Hin as [->|Hin]; [by left|right; by apply IH].
Qed.

(** X13: the manager.  [getBreaker] after [createBreaker] returns a new
    breaker under that name, and the other names are not affected; the
    names stay distinct; no service is listed both as healthy and as
    unhealthy; after [resetAll] every service is healthy and none is
    unhealthy. *)
Theorem manager_registry now name o (m : CircuitBreakerManager.t) :
  getBreaker name (createBreaker now name o m) = Some (CircuitBreaker.new now)
  ∧ (∀ other, other ≠ name →
       getBreaker other (createBreaker now name o m) = getBreaker other m)
  ∧ (NoDup (fst <$> m) → NoDup (fst <$> createBreaker now name o m))
  ∧ (NoDup (fst <$> m) →
     ∀ service, service ∈ getHealthyServices m →
                service ∉ getUnhealthyServices m)
  ∧ (∀ clock, getHealthyServices (resetAll clock m) = fst <$> m
              ∧ getUnhealthyServices (resetAll clock m) = []).
Proof.
  split; [|split; [|split; [|split]]].
  - unfold getBreaker, createBreaker. rewrite map_get_set.
    by rewrite String.eqb_refl.
  - intros other Hne. unfold getBreaker, createBreaker. rewrite map_get_set.
    by destruct (String.eqb_spec name other).
  - apply map_set_keys.
  - intros Hnd service. unfold getHealthyServices, getUnhealthyServices.
    rewrite !list_elem_of_fmap.
    intros ([k e] & -> & He) ([k' e'] & Hk & He').
    apply list_elem_of_In, filter_In in He as [He Hc].
    apply list_elem_of_In, filter_In in He' as [He' Ho]. cbn in Hk. subst k'.
    assert (e = e') as <-.
    { apply list_elem_of_In in He, He'.
      apply list_elem_of_lookup in He as [i Hi].
      apply list_elem_of_lookup in He' as [j Hj].
      assert (i = j) as <-.
      { eapply NoDup_lookup; [exact Hnd| |];
          rewrite list_lookup_fmap; [by rewrite Hi|by rewrite Hj]. }
      congruence. }
    unfold isClosed, isOpen in *. by destruct (state (entry_breaker e)).
  - intros clock. unfold getHealthyServices, getUnhealthyServices, resetAll.
    assert (∀ (f : nat → nat) ,
              fst <$> List.filter (λ '(_, e), isClosed (entry_breaker e))
                (imap (λ i '(name, e),
                   (name, {| entry_options := entry_options e;
                             entry_breaker :=
                               CircuitBreaker.reset (clock (f i)) (entry_breaker e) |})) m)
              = fst <$> m
              ∧ fst <$> List.filter (λ '(_, e), isOpen (entry_breaker e))
                  (imap (λ i '(name, e),
                     (name, {| entry_options := entry_options e;
                               entry_breaker :=
                                 CircuitBreaker.reset (clock (f i)) (entry_breaker e) |})) m)
                = []) as H.
    { induction m as [|[k e] m IH]; intros f; [done|].
      cbn [imap List.filter]. cbn.
      destruct (IH (f ∘ S)) as [H1 H2]. split; [f_equal; exact H1|exact H2]. }
    exact (H id).
Qed.

End CircuitBreakerMoreFacts.

(** ** More on the token bucket *)

Module RateLimiterMoreFacts.

Import RateLimiter RateLimiterRuns.

Section Clock.

Variable wake : Z → Q → Z.

(** At the instant of its last refill, a bucket within capacity gains
    nothing from a refill. *)
Lemma refilled_same_instant now l :
  lastRefill l = now → (tokens l <= capacity l)%Q →
  (refilled now l == tokens l)%Q.
Proof.
  intros <- Hle. unfold refilled. rewrite Z.sub_diag.
  rewrite Q.min_r; [field|].
  assert (inject_Z 0 / 1000 * refillRate l == 0)%Q as -> by (cbn; field).
  lra.
Qed.

Lemma calls_immediate now k : ∀ l,
  (tokens l <= capacity l)%Q → (refilled now l == tokens l)%Q →
  (inject_Z (Z.of_nat k) <= tokens l)%Q →
  ∃ l', calls wake 1 k now l = Some (now, l')
        ∧ (tokens l' == tokens l - inject_Z (Z.of_nat k))%Q
        ∧ capacity l' = capacity l ∧ refillRate l' = refillRate l.
Proof.
  induction k as [|k IH]; intros l Hcap Hfull Hk.
  - exists l. repeat split. cbn. ring.
  - rewrite Nat2Z.inj_succ, <- Z.add_1_r, inject_Z_plus in Hk.
    cbn [calls waitForSlot]. cbn [tokens refillTokens].
    assert (Qle_bool 1 (refilled now l) = true) as ->.
    { apply Qle_bool_iff. rewrite Hfull.
      assert (0 <= inject_Z (Z.of_nat k))%Q.
      { replace 0%Q with (inject_Z 0) by done. rewrite <- Zle_Qle. lia. }
      change (inject_Z 1) with 1%Q in Hk. lra. }
    destruct (IH (consume (refillTokens now l))) as (l' & Hrun & Ht & Hc & Hr).
    + cbn [tokens capacity consume refillTokens]. rewrite Hfull. lra.
    + rewrite refilled_same_instant; [reflexivity|reflexivity|].
      cbn [tokens capacity consume refillTokens]. rewrite Hfull. lra.
    + cbn [tokens consume refillTokens]. rewrite Hfull.
      change (inject_Z 1) with 1%Q in Hk. lra.
    + exists l'. split; [exact Hrun|]. split; [|by split].
      rewrite Ht. cbn [tokens consume refillTokens]. rewrite Hfull.
      rewrite Nat2Z.inj_succ, <- Z.add_1_r, inject_Z_plus.
      change (inject_Z 1) with 1%Q. ring.
Qed.

(** X14: a new bucket for [n] requests per minute serves [k] calls of
    [waitForSlot] in a row, for any [k] up to [n], at one instant and
    without waiting, and is left with [n - k] tokens. *)
Theorem burst_up_to_capacity (n k : nat) t0 now :
  t0 ≤ now → (k ≤ n)%nat →
  ∃ l, calls wake 1 k now (new (inject_Z (Z.of_nat n)) t0) = Some (now, l)
       ∧ (tokens l == inject_Z (Z.of_nat n) - inject_Z (Z.of_nat k))%Q.
Proof.
  intros Ht Hk.
  destruct (calls_immediate now k (new (inject_Z (Z.of_nat n)) t0))
    as (l & Hrun & Htok & _).
  - cbn. apply Qle_refl.
  - cbn [tokens new]. unfold refilled. cbn [tokens capacity refillRate lastRefill new].
    apply Q.min_l.
    assert (0 <= inject_Z (now - t0) / 1000 * (inject_Z (Z.of_nat n) / 60))%Q;
      [|lra].
    assert (0 <= inject_Z (now - t0))%Q.
    { replace 0%Q with (inject_Z 0) by done. rewrite <- Zle_Qle. lia. }
    assert (0 <= inject_Z (Z.of_nat n))%Q.
    { replace 0%Q with (inject_Z 0) by done. rewrite <- Zle_Qle. lia. }
    apply Qmult_le_0_compat; apply Qle_shift_div_l; lra.
  - cbn [tokens new]. rewrite <- Zle_Qle. lia.
  - exists l. split; [exact Hrun|exact Htok].
Qed.

Lemma waitForSlot_one_pass t l now' l' :
  waitForSlot wake 1 t l = Some (now', l') → now' = t.
Proof.
  cbn [waitForSlot]. destruct (Qle_bool 1 _); [|done]. by intros [= <- _].
Qed.

(** X15: when the refilled bucket holds less than one token,
    [waitForSlot] does not return at once: it sleeps and, with timers that
    do not fire early, returns no sooner than [(1 - tokens) / refillRate]
    seconds later. *)
Theorem short_bucket_makes_the_call_wait now l :
  punctual wake → (1 <= capacity l)%Q → (0 < refillRate l)%Q →
  (refilled now l < 1)%Q →
  waitForSlot wake 1 now l = None
  ∧ ∃ now' l', waitForSlot wake 2 now l = Some (now', l')
      ∧ (inject_Z now + (1 - refilled now l) / refillRate l * 1000
         <= inject_Z now')%Q.
Proof.
  intros Hwake Hcap Hrate Hshort.
  assert (Qle_bool 1 (tokens (refillTokens now l)) = false) as Hfalse.
  { destruct (Qle_bool 1 (tokens (refillTokens now l))) eqn:Hb; [|done].
    apply Qle_bool_iff in Hb. cbn [tokens refillTokens] in Hb. lra. }
  split; [cbn [waitForSlot]; by rewrite Hfalse|].
  destruct (RateLimiterFacts.waitForSlot_returns wake now l Hwake Hcap Hrate)
    as (now' & l' & Hrun).
  exists now', l'. split; [exact Hrun|].
  assert (waitForSlot wake 2 now l
          = waitForSlot wake 1 (wake now (waitTime (refillTokens now l)))
              (refillTokens now l)) as Hstep.
  { cbn [waitForSlot]. by rewrite Hfalse. }
  rewrite Hstep in Hrun. apply waitForSlot_one_pass in Hrun as ->.
  exact (Hwake now (waitTime (refillTokens now l))).
Qed.

End Clock.

Lemma burst_up_to_capacity_witness :
  ∃ l, calls ceil_wake 1 60 1000 (new (inject_Z (Z.of_nat 60)) 0) = Some (1000, l)
       ∧ (tokens l == inject_Z (Z.of_nat 60) - inject_Z (Z.of_nat 60))%Q.
Proof.
  apply (burst_up_to_capacity ceil_wake 60 60 0 1000); lia.
Defined.

Lemma short_bucket_makes_the_call_wait_witness :
  waitForSlot ceil_wake 1 1000 MoreExamples.empty_bucket = None.
Proof.
  apply (short_bucket_makes_the_call_wait ceil_wake 1000 MoreExamples.empty_bucket).
  - apply RateLimiterFacts.ceil_wake_punctual.
  - discriminate.
  - reflexivity.
  - reflexivity.
Defined.

End RateLimiterMoreFacts.

(** ** The data cleaner *)

Module DataCleanerFacts.

Import SysSpec DataCleaner JsFacts.

(** Induction on values, with the hypothesis for every item of an array
    and every value of an object. *)
Lemma value_induction (P : Js.value → Prop) :
  P Js.JUndefined → P Js.JNull → (∀ b, P (Js.JBool b)) → (∀ n, P (Js.JNum n)) →
  (∀ s, P (Js.JStr s)) →
  (∀ items, Forall P items → P (Js.JArr items)) →
  (∀ fields, Forall (λ entry, P entry.2) fields → P (Js.JObj fields)) →
  ∀ v, P v.
Proof.
  intros Hu Hn Hb Hz Hs Ha Ho. fix IH 1. intros [| |b|n|s|items|fields].
  - exact Hu.
  - exact Hn.
  - apply Hb.
  - apply Hz.
  - apply Hs.
  - apply Ha. induction items as [|x items IHl]; constructor; [apply IH|exact IHl].
  - apply Ho. induction fields as [|[k x] fields IHl]; constructor;
      [apply IH|exact IHl].
Qed.

Lemma has_pii_key_set_prop k v fields :
  shouldRemoveField k = false → has_pii_key v = false →
  has_pii_key (Js.JObj fields) = false →
  has_pii_key (Js.JObj (Js.set_prop k v fields)) = false.
Proof.
  intros Hk Hv. induction fields as [|[k0 v0] fields IH];
    cbn [has_pii_key Js.set_prop existsb fst snd].
  - intros _. by rewrite Hk, Hv.
  - intros H. apply orb_false_elim in H as [H0 Hrest].
    destruct (String.eqb k k0); cbn [existsb fst snd].
    + by rewrite Hk, Hv, Hrest.
    + rewrite H0. by apply IH.
Qed.

Lemma cleanEntries_pii_free recurse todo : ∀ cleaned,
  Forall (λ entry, has_pii_key (recurse entry.2) = false) todo →
  has_pii_key (Js.JObj cleaned) = false →
  has_pii_key (Js.JObj (cleanEntries recurse todo cleaned)) = false.
Proof.
  induction todo as [|[k v] todo IH]; intros cleaned Htodo Hc; [exact Hc|].
  apply Forall_cons in Htodo as [Hv Htodo]. cbn [cleanEntries].
  destruct (shouldRemoveField k) eqn:Hk; [by apply IH|].
  destruct (String.eqb k "__proto__"); [by apply IH|].
  apply IH; [exact Htodo|]. apply has_pii_key_set_prop; [exact Hk| |exact Hc].
  destruct v; try reflexivity; exact Hv.
Qed.

Lemma cleanObject_pii_free v : has_pii_key (cleanObject v) = false.
Proof.
  induction v as [| |b|n|s|items IH|fields IH] using value_induction;
    try reflexivity.
  - cbn [cleanObject has_pii_key].
    induction IH as [|x items Hx _ IHl]; [reflexivity|].
    cbn [List.map existsb]. by rewrite Hx.
  - cbn [cleanObject]. by apply cleanEntries_pii_free.
Qed.

(** [clean] leaves a value that is not an object alone, and hands any
    other to [cleanObject]. *)
Lemma clean_cases v :
  clean v = cleanObject v ∨ clean v = v ∧ has_pii_key v = false.
Proof.
  unfold clean.
  destruct v; cbn [Js.truthy Js.typeof_object negb]; rewrite ?orb_true_r; auto.
Qed.


(** X16: in what [clean] returns, no object at any depth has a key that
    [shouldRemoveField] marks as personal data. *)
Theorem cleaned_data_has_no_pii_key v : has_pii_key (clean v) = false.
Proof.
  destruct (clean_cases v) as [->|[-> Hv]]; [|exact Hv].
  apply cleanObject_pii_free.
Qed.






End DataCleanerFacts.

(** ** More on the vendor call and the worker *)

Module WorkerMoreFacts.

Import Sys SysSpec Worker WorkerFacts JsFacts.

Section Worker.

Variable env : Env.
Variable config : Vendor.Configuration.

(** X19: the body posted to a vendor carries the [requestId] and the
    timestamp, and for an asynchronous vendor the [webhookUrl]; they
    override the fields of the payload with these names, and every other
    field of the payload is sent as it is. *)
Theorem request_data_fields vendor vendorName fields requestId t :
  distinct_keys fields →
  ∃ sent,
    Vendor.requestData env config vendor vendorName (Js.JObj fields) requestId t
    = Js.JObj sent
    ∧ distinct_keys sent
    ∧ Js.get_prop "requestId" sent = Js.JStr requestId
    ∧ Js.get_prop "timestamp" sent = Js.JStr (toISOString env t)
    ∧ (Vendor.isAsync vendor = true →
       Js.get_prop "webhookUrl" sent
       = Js.JStr (Vendor.getApiBaseUrl config +:+ "/vendor-webhook/" +:+ vendorName))
    ∧ (∀ k, k ≠ "requestId" → k ≠ "timestamp" →
            (Vendor.isAsync vendor = true → k ≠ "webhookUrl") →
            Js.get_prop k sent = Js.get_prop k fields).
Proof.
  intros Hnd. unfold Vendor.requestData. cbn [Vendor.spread].
  set (f1 := Js.set_prop "requestId" (Js.JStr requestId) fields).
  set (f2 := Js.set_prop "timestamp" (Js.JStr (toISOString env t)) f1).
  assert (distinct_keys f1) as H1 by by apply set_prop_distinct.
  assert (distinct_keys f2) as H2 by by apply set_prop_distinct.
  assert (Js.get_prop "requestId" f2 = Js.JStr requestId) as Hid.
  { unfold f2. rewrite get_prop_set_prop_ne by done.
    by apply get_prop_set_prop_eq. }
  assert (Js.get_prop "timestamp" f2 = Js.JStr (toISOString env t)) as Hts.
  { by apply get_prop_set_prop_eq. }
  assert (∀ k, k ≠ "requestId" → k ≠ "timestamp" →
               Js.get_prop k f2 = Js.get_prop k fields) as Hother.
  { intros k ? ?. unfold f2, f1. by rewrite !get_prop_set_prop_ne. }
  destruct (Vendor.isAsync vendor).
  - eexists. split; [reflexivity|]. split; [by apply set_prop_distinct|].
    split; [by rewrite get_prop_set_prop_ne|].
    split; [by rewrite get_prop_set_prop_ne|].
    split; [intros _; by apply get_prop_set_prop_eq|].
    intros k ? ? Hw. rewrite get_prop_set_prop_ne; [by apply Hother|].
    intros <-. by apply Hw.
  - exists f2. repeat split; try done. intros k ? ? _. by apply Hother.
Qed.

(** X18: [callVendor] for a name other than [syncVendor] and
    [asyncVendor] throws [Unknown vendor: name]; nothing is sent and no
    token is taken. *)
Theorem unknown_vendor_is_refused fuel vendorName payload requestId w :
  vendorName ≠ "syncVendor" → vendorName ≠ "asyncVendor" →
  Vendor.callVendor env config fuel vendorName payload requestId w
  = (Throw ("Unknown vendor: " +:+ vendorName), w).
Proof.
  intros Hs Ha. unfold Vendor.callVendor, Vendor.vendors.
  rewrite lookup_insert_ne by done. rewrite lookup_insert_ne by done.
  by rewrite lookup_empty.
Qed.

(** A write of the worker to a stored job. *)
Lemma updateOne_tracks id set w d :
  job_is id d w → (∀ t x, JobStore.requestId (set t x) = JobStore.requestId x) →
  returns (Worker.updateOne id set) w
    (λ _ w', job_is id (set (now w) d) w' ∧ now w' = now w
             ∧ same_traffic w w').
Proof.
  intros Hd Hset. unfold returns, Worker.updateOne, job_is in *.
  destruct (JobStoreFacts.updateOne_hit id (set (now w)) (jobs w) d Hd)
    as (pre & post & Hs & Hpre & Hup).
  rewrite Hup. eexists _, _. split; [reflexivity|]. cbn.
  split; [|done]. unfold JobStore.findOne in *.
  rewrite (JobStoreFacts.first_with_app_miss _ _ _ Hpre). cbn.
  rewrite Hset, (JobStoreFacts.first_with_Some_id _ _ _ Hd).
  by rewrite String.eqb_refl.
Qed.



Lemma bind_return {A B} (m : M A) (k : A → M B) w a w1 :
  m w = (Return a, w1) → (m ≫= k) w = k a w1.
Proof. intros H. by rewrite ServerFacts.bind_eq, H. Qed.




Lemma updateJobStatus_tracks id st w d :
  job_is id d w →
  ∃ w', updateJobStatus id st w = (Return tt, w')
    ∧ job_is id {| JobStore.requestId := JobStore.requestId d;
                   JobStore.status := st;
                   JobStore.payload := JobStore.payload d;
                   JobStore.result := JobStore.result d;
                   JobStore.error := JobStore.error d;
                   JobStore.vendor := JobStore.vendor d;
                   JobStore.createdAt := JobStore.createdAt d;
                   JobStore.updatedAt := now w |} w'
    ∧ now w' = now w ∧ same_traffic w w'.
Proof.
  intros Hd. unfold updateJobStatus.
  match goal with |- context [Worker.updateOne id ?f] =>
    destruct (updateOne_tracks id f w d Hd (λ _ _, eq_refl))
      as (n & w' & Hrun & Hjob & Hnow & Htr) end.
  exists w'. by rewrite (bind_return _ _ _ _ _ Hrun).
Qed.


Lemma updateJobResult_tracks id st res err w d :
  job_is id d w →
  ∃ w', updateJobResult id st res err w = (Return tt, w')
    ∧ job_is id {| JobStore.requestId := JobStore.requestId d;
                   JobStore.status := st;
                   JobStore.payload := JobStore.payload d;
                   JobStore.result :=
                     if Js.nullish res then JobStore.result d else res;
                   JobStore.error :=
                     if Js.truthy_str err then err else JobStore.error d;
                   JobStore.vendor := JobStore.vendor d;
                   JobStore.createdAt := JobStore.createdAt d;
                   JobStore.updatedAt := now w |} w'
    ∧ now w' = now w ∧ same_traffic w w'.
Proof.
  intros Hd. unfold updateJobResult.
  match goal with |- context [Worker.updateOne id ?f] =>
    destruct (updateOne_tracks id f w d Hd (λ _ _, eq_refl))
      as (n & w' & Hrun & Hjob & Hnow & Htr) end.
  exists w'. by rewrite (bind_return _ _ _ _ _ Hrun).
Qed.

Lemma turn_one fuel message w w1 :
  processJob env config fuel message w = (Return tt, w1) →
  turn env config fuel [message] w
  = (Return tt, set_acked (acked w1 ++ [id message]) w1).
Proof.
  intros Hrun. unfold turn, try_catch. cbn [for_each].
  change (bind ?m ?k) with (m ≫= k).
  by rewrite !ServerFacts.bind_eq, Hrun.
Qed.

(** X22: a message whose payload is not JSON, or is [null], fails its job:
    no vendor is called, the stored job ends [failed] with a non-empty
    error, and the message is acknowledged. *)
Theorem unreadable_payload_fails_the_job fuel message w d :
  JSON_parse env (msg_payload message) = None
  ∨ JSON_parse env (msg_payload message) = Some Js.JNull →
  job_is (msg_requestId message) d w →
  ∃ w' msg,
    turn env config fuel [message] w = (Return tt, w')
    ∧ posts w' = posts w
    ∧ acked w' = acked w ++ [id message]
    ∧ msg ≠ EmptyString
    ∧ job_is (msg_requestId message)
        {| JobStore.requestId := JobStore.requestId d;
           JobStore.status := JobStore.failed;
           JobStore.payload := JobStore.payload d;
           JobStore.result := JobStore.result d;
           JobStore.error := Some msg;
           JobStore.vendor := JobStore.vendor d;
           JobStore.createdAt := JobStore.createdAt d;
           JobStore.updatedAt := now w |} w'.
Proof.
  intros Hparse Hd.
  destruct (updateJobStatus_tracks _ JobStore.processing w d Hd)
    as (w1 & H1 & Hd1 & Hnow1 & Hp1 & Ha1 & Hr1).
  assert (∃ msg, msg ≠ EmptyString
            ∧ (parse env (msg_payload message) ≫= λ jobPayload,
               selectVendor jobPayload ≫= λ vendor,
               assignVendor (msg_requestId message) vendor ≫= λ _,
               Vendor.callVendor env config fuel vendor jobPayload
                 (msg_requestId message) ≫= λ vendorResponse,
               if Vendor.resp_isAsync vendorResponse then mret tt
               else updateJobResult (msg_requestId message) JobStore.complete
                      (clean env (Vendor.data vendorResponse)) None) w1
              = (Throw msg, w1)) as (msg & Hmsg & Hthrow).
  { destruct Hparse as [Hp|Hp].
    - eexists. split; [|unfold parse; rewrite Hp; reflexivity]. done.
    - eexists. split; [|unfold parse; rewrite Hp; reflexivity]. done. }
  destruct (updateJobResult_tracks (msg_requestId message) JobStore.failed
              Js.JNull (Some msg) w1 _ Hd1)
    as (w2 & H2 & Hd2 & Hnow2 & Hp2 & Ha2 & Hr2).
  exists (set_acked (acked w2 ++ [id message]) w2), msg.
  split.
  { apply turn_one. unfold processJob, try_catch.
    rewrite (bind_return _ _ _ _ _ H1). rewrite Hthrow. exact H2. }
  split; [cbn; congruence|]. split; [cbn; congruence|]. split; [exact Hmsg|].
  unfold job_is in *. cbn [jobs set_acked]. rewrite Hd2. cbn [Js.nullish].
  assert (Js.truthy_str (Some msg) = true) as ->.
  { cbn. by destruct (String.eqb_spec msg EmptyString). }
  by rewrite Hnow1.
Qed.








End Worker.

Lemma unknown_vendor_is_refused_witness :
  Vendor.callVendor Examples.env Examples.config 2 "otherVendor" (Js.JObj [])
    Examples.uuid (Examples.world 5000 [])
  = (Throw "Unknown vendor: otherVendor", Examples.world 5000 []).
Proof.
  apply (unknown_vendor_is_refused Examples.env Examples.config 2 "otherVendor");
    discriminate.
Defined.

Lemma request_data_fields_witness :
  ∃ sent,
    Vendor.requestData Examples.env Examples.config
      (Vendor.asyncVendor Examples.config) "asyncVendor"
      (Js.JObj [("type", Js.JStr "async")]) Examples.uuid 5000
    = Js.JObj sent
    ∧ Js.get_prop "requestId" sent = Js.JStr Examples.uuid
    ∧ Js.get_prop "type" sent = Js.JStr "async".
Proof.
  destruct (request_data_fields Examples.env Examples.config
              (Vendor.asyncVendor Examples.config) "asyncVendor"
              [("type", Js.JStr "async")] Examples.uuid 5000)
    as (sent & Hsent & _ & Hid & _ & _ & Hother).
  - apply NoDup_singleton.
  - exists sent. split; [exact Hsent|]. split; [exact Hid|].
    apply (Hother "type"); discriminate.
Defined.



Lemma unreadable_payload_fails_the_job_witness :
  ∃ w' d',
    turn Examples.env Examples.config 2 [MoreExamples.garbled_message]
      (Examples.world 5000 [Examples.pending_doc]) = (Return tt, w')
    ∧ posts w' = []
    ∧ job_is Examples.uuid d' w' ∧ JobStore.status d' = JobStore.failed.
Proof.
  destruct (unreadable_payload_fails_the_job Examples.env Examples.config 2
              MoreExamples.garbled_message
              (Examples.world 5000 [Examples.pending_doc]) Examples.pending_doc)
    as (w' & msg & Hrun & Hposts & _ & _ & Hjob).
  - left. reflexivity.
  - reflexivity.
  - exists w'. eexists. split; [exact Hrun|]. split; [exact Hposts|].
    split; [exact Hjob|reflexivity].
Defined.





End WorkerMoreFacts.

(** ** More on the server *)

Module ServerMoreFacts.

Import Sys SysSpec JobStore Server ServerGet.

(** X26: the webhook.  A body without [requestId], or with an empty one,
    is answered 400 and changes nothing.  For a stored job the answer is
    200, the job is rewritten by [updateResult] with the status of the body
    ([complete] when it has none), and its entry is deleted from the
    cache. *)
Theorem webhook_intake vendor b w :
  (wb_requestId b = None ∨ wb_requestId b = Some EmptyString →
   handleVendorWebhook vendor b w
   = (Return {| code := 400; body := error_body "requestId is required" |}, w))
  ∧ (∀ id d, wb_requestId b = Some id → id ≠ EmptyString → job_is id d w →
     ∃ pre post,
       jobs w = pre ++ d :: post
       ∧ handleVendorWebhook vendor b w
         = (Return {| code := 200;
                      body := Js.JObj [("success", Js.JBool true)] |},
            set_cache (delete (cacheKey id) (cache w))
              (set_jobs
                 (pre ++ updateData (now w) (default complete (wb_status b))
                           (wb_result b) (wb_error b) d :: post) w))).
Proof.
  split.
  - intros [H|H]; unfold handleVendorWebhook; by rewrite H.
  - intros id d Hid Hne Hd.
    destruct (ServerFacts.updateResult_known id (default complete (wb_status b))
                (wb_result b) (wb_error b) w d Hd)
      as (pre & post & Hs & _ & Hup).
    exists pre, post. split; [exact Hs|].
    unfold handleVendorWebhook, try_catch. rewrite Hid.
    destruct (String.eqb_spec id EmptyString); [done|].
    by rewrite ServerFacts.bind_eq, Hup.
Qed.

Lemma webhook_intake_witness :
  handleVendorWebhook "asyncVendor"
    {| wb_requestId := None; wb_result := Js.JNum 1; wb_status := None;
       wb_error := None |}
    (Examples.world 5000 [Examples.waiting_doc])
  = (Return {| code := 400; body := error_body "requestId is required" |},
     Examples.world 5000 [Examples.waiting_doc]).
Proof.
  apply (webhook_intake "asyncVendor"). left. reflexivity.
Defined.

Lemma handleGetJob_hit id w job :
  id ≠ EmptyString → cache w !! cacheKey id = Some job →
  handleGetJob id w = (Return (JobFound (formatJobResponse job)), w).
Proof.
  intros Hne Hc. unfold handleGetJob, try_catch.
  destruct (String.eqb_spec id EmptyString); [done|].
  assert (getCachedJob id w = (Return (cache w !! cacheKey id), w)) as Hcached
    by reflexivity.
  by rewrite ServerFacts.bind_eq, Hcached, Hc.
Qed.

Lemma handleGetJob_miss id w :
  id ≠ EmptyString → cache w !! cacheKey id = None →
  handleGetJob id w
  = match findById id (jobs w) with
    | Some job => (Return (JobFound (formatJobResponse job)),
                   set_cache (<[cacheKey id := job]> (cache w)) w)
    | None => (Return JobNotFound, w)
    end.
Proof.
  intros Hne Hc. unfold handleGetJob, try_catch.
  destruct (String.eqb_spec id EmptyString); [done|].
  assert (getCachedJob id w = (Return (cache w !! cacheKey id), w)) as Hcached
    by reflexivity.
  assert (get w = (Return w, w)) as Hget by reflexivity.
  rewrite ServerFacts.bind_eq, Hcached, Hc.
  rewrite ServerFacts.bind_eq, Hget. by destruct (findById id (jobs w)).
Qed.

(** X27: the status endpoint reads through the cache, whose key is the
    identifier as it is given.  A cached job is answered from the cache,
    and nothing changes; on a miss, the job that [findById] finds (under
    the identifier trimmed, as the query casts it) is answered and put in
    the cache; on a miss with no such job the answer is 404 and nothing
    changes. *)
Theorem status_is_read_through_the_cache id w :
  id ≠ EmptyString →
  (∀ job, cache w !! cacheKey id = Some job →
     handleGetJob id w = (Return (JobFound (formatJobResponse job)), w))
  ∧ (cache w !! cacheKey id = None →
     ∀ job, findById id (jobs w) = Some job →
       handleGetJob id w
       = (Return (JobFound (formatJobResponse job)),
          set_cache (<[cacheKey id := job]> (cache w)) w))
  ∧ (cache w !! cacheKey id = None → findById id (jobs w) = None →
     handleGetJob id w = (Return JobNotFound, w)).
Proof.
  intros Hne. repeat split.
  - intros job. by apply handleGetJob_hit.
  - intros Hc job Hj. by rewrite handleGetJob_miss, Hj.
  - intros Hc Hj. by rewrite handleGetJob_miss, Hj.
Qed.

Lemma status_is_read_through_the_cache_witness :
  handleGetJob Examples.uuid (Examples.world 5000 [])
  = (Return JobNotFound, Examples.world 5000 []).
Proof.
  apply (status_is_read_through_the_cache Examples.uuid (Examples.world 5000 []));
    [discriminate|reflexivity|reflexivity].
Defined.

(** X29: once a status request has answered with a job, a later request
    answers the same as long as the entry is in the cache, whatever has
    become of the stored job in between. *)
Theorem cached_status_outlives_the_store id w w1 r :
  handleGetJob id w = (Return (JobFound r), w1) →
  ∀ w2, cache w2 !! cacheKey id = cache w1 !! cacheKey id →
        handleGetJob id w2 = (Return (JobFound r), w2).
Proof.
  intros Hget w2 Hcache.
  destruct (String.eqb_spec id EmptyString) as [->|Hne]; [done|].
  assert (∃ job, cache w1 !! cacheKey id = Some job
                 ∧ r = formatJobResponse job) as (job & Hjob & ->).
  { destruct (cache w !! cacheKey id) as [job|] eqn:Hc.
    - rewrite (handleGetJob_hit id w job Hne Hc) in Hget.
      injection Hget as <- <-. by exists job.
    - rewrite (handleGetJob_miss id w Hne Hc) in Hget.
      destruct (findById id (jobs w)) as [job|]; [|done].
      injection Hget as <- <-.
      exists job. cbn [cache set_cache]. by rewrite lookup_insert_eq. }
  apply handleGetJob_hit; [done|]. by rewrite Hcache.
Qed.

Lemma cached_status_outlives_the_store_witness :
  ∃ w1,
    handleGetJob Examples.uuid (Examples.world 5000 [Examples.waiting_doc])
    = (Return (JobFound (formatJobResponse Examples.waiting_doc)), w1)
    ∧ handleGetJob Examples.uuid (set_jobs [Examples.complete_doc] w1)
      = (Return (JobFound (formatJobResponse Examples.waiting_doc)),
         set_jobs [Examples.complete_doc] w1).
Proof.
  eexists. split; [reflexivity|].
  eapply (cached_status_outlives_the_store Examples.uuid
            (Examples.world 5000 [Examples.waiting_doc])); reflexivity.
Defined.







End ServerMoreFacts.
